(** * Heap sort (out-of-date/cpp/sorting/heap_sort.cpp)

    A shallow embedding of [heapfy], [build] and [heapsort], and the
    properties of the heap engine proved on it.

    The C++ code works on an [int *a] and on two process-wide [int]
    variables, [length] and [heap_size].  The embedding threads one
    record through every call: the array cells, the two globals, and a
    log of the array accesses made so far (most recent first).  An array
    access outside the allocated cells is a fault; recursion and the
    [while] loops are driven by a fuel counter, so that each function is
    an executable Rocq function.

    Indices are [int]s: the results of [i << 1] and [(i << 1) + 1] are
    taken modulo 2^32 into the range of a 32-bit two's complement
    integer.  The values stored in the array are only compared and
    copied, never computed with, and are kept as integers of [Z]. *)

From Stdlib Require Import ZArith List Lia Permutation Bool Sorted.
From Stdlib Require Import Ascii String DecimalString.
Import ListNotations.
Open Scope Z_scope.

(** * Part I: the embedding *)

(** ** Machine integers *)

(** [int] is a 32-bit two's complement integer. *)
Definition INT_MAX : Z := 2147483647.
Definition INT_MIN : Z := -2147483648.

(** The value an [int] computation yields for the mathematical result [x]. *)
Definition wrap (x : Z) : Z := (x + 2147483648) mod 4294967296 - 2147483648.

(** [inline int parent(int i) { return (i >> 1); }] *)
Definition parent (i : Z) : Z := Z.shiftr i 1.
(** [inline int left(int i) { return (i << 1); }] *)
Definition left (i : Z) : Z := wrap (Z.shiftl i 1).
(** [inline int right(int i) { return (i << 1) + 1; }] *)
Definition right (i : Z) : Z := wrap (wrap (Z.shiftl i 1) + 1).

(** ** Program state *)

Inductive access : Type :=
| Rd (i : Z)
| Wr (i : Z).

Definition idx (e : access) : Z :=
  match e with Rd i => i | Wr i => i end.

Record heap : Type := mkHeap {
  cells : list Z;       (* the array [a], slot 0 first *)
  length : Z;           (* global [int length] *)
  heap_size : Z;        (* global [int heap_size] *)
  log : list access     (* array accesses, most recent first *)
}.

Inductive outcome (A : Type) : Type :=
| Ok (x : A) (h : heap)
| Fault
| Timeout.
Arguments Ok {A} x h.
Arguments Fault {A}.
Arguments Timeout {A}.

Definition M (A : Type) : Type := heap -> outcome A.

Definition ret {A} (x : A) : M A := fun h => Ok x h.

Definition bind {A B} (m : M A) (k : A -> M B) : M B :=
  fun h => match m h with
           | Ok x h' => k x h'
           | Fault => Fault
           | Timeout => Timeout
           end.

Notation "x <- m ;; k" := (bind m (fun x => k))
  (at level 61, m at next level, right associativity).
Notation "m ;;; k" := (bind m (fun _ => k))
  (at level 61, right associativity).

Definition timeout {A} : M A := fun _ => Timeout.

(** Functional update of one cell; the list is unchanged when [n] is
    not one of its positions. *)
Fixpoint upd (l : list Z) (n : nat) (v : Z) : list Z :=
  match l, n with
  | [], _ => []
  | _ :: t, O => v :: t
  | x :: t, S n' => x :: upd t n' v
  end.

(** [a[i]] as an rvalue. *)
Definition rd (i : Z) : M Z := fun h =>
  if 0 <=? i then
    match nth_error (cells h) (Z.to_nat i) with
    | Some v => Ok v (mkHeap (cells h) (length h) (heap_size h) (Rd i :: log h))
    | None => Fault
    end
  else Fault.

(** [a[i] = v]. *)
Definition wr (i : Z) (v : Z) : M unit := fun h =>
  if (0 <=? i) && (i <? Z.of_nat (List.length (cells h))) then
    Ok tt (mkHeap (upd (cells h) (Z.to_nat i) v) (length h) (heap_size h)
                  (Wr i :: log h))
  else Fault.

Definition get_heap_size : M Z := fun h => Ok (heap_size h) h.

Definition set_heap_size (v : Z) : M unit := fun h =>
  Ok tt (mkHeap (cells h) (length h) v (log h)).

Definition set_length (v : Z) : M unit := fun h =>
  Ok tt (mkHeap (cells h) v (heap_size h) (log h)).

(** ** The three routines *)

(** Lines 46-52 of [heapfy]: the index of the largest of [a[i]] and its
    children inside the heap.  [&&] is short-circuit: the cells are read
    only when the bound test succeeds. *)
Definition pick_largest (i : Z) : M Z :=
  let lft := left i in
  let rght := right i in
  hs <- get_heap_size ;;
  largest <- (if lft <=? hs
              then (x <- rd i ;; y <- rd lft ;;
                    ret (if x <? y then lft else i))
              else ret i) ;;
  hs' <- get_heap_size ;;
  (if rght <=? hs'
   then (x <- rd largest ;; y <- rd rght ;;
         ret (if x <? y then rght else largest))
   else ret largest).

(** [void heapfy(int *a, int i)] *)
Fixpoint heapfy (fuel : nat) (i : Z) : M unit :=
  match fuel with
  | O => timeout
  | S fuel' =>
      largest <- pick_largest i ;;
      if largest =? i then ret tt
      else
        tmp <- rd i ;;
        v <- rd largest ;;
        wr i v ;;;
        wr largest tmp ;;;
        heapfy fuel' largest
  end.

(** The [while (n >= 1) { heapfy(a, n); n--; }] loop of [build]. *)
Fixpoint build_loop (fuel : nat) (n : Z) : M unit :=
  match fuel with
  | O => timeout
  | S fuel' =>
      if 1 <=? n then
        heapfy fuel' n ;;;
        build_loop fuel' (wrap (n - 1))
      else ret tt
  end.

(** [void build(int *a, int n)] *)
Definition build (fuel : nat) (n : Z) : M unit :=
  set_length n ;;;
  set_heap_size n ;;;
  wr 0 (-1) ;;;
  build_loop fuel (Z.shiftr n 1).

(** The [while (i <= heap_size)] loop of [heapsort], with [i = 1].
    Nothing between the loop test and [heap_size--] assigns the global,
    so the value read for the test is the one the body uses. *)
Fixpoint heapsort_loop (fuel : nat) (i : Z) : M unit :=
  match fuel with
  | O => timeout
  | S fuel' =>
      hs <- get_heap_size ;;
      if i <=? hs then
        tmp <- rd hs ;;
        v <- rd i ;;
        wr hs v ;;;
        wr i tmp ;;;
        set_heap_size (wrap (hs - 1)) ;;;
        heapfy fuel' i ;;;
        heapsort_loop fuel' i
      else ret tt
  end.

(** [void heapsort(int *a, int n)] *)
Definition heapsort (fuel : nat) (n : Z) : M unit :=
  build fuel n ;;;
  heapsort_loop fuel 1.

(** ** The driver's printing routine *)

Definition get_length : M Z := fun h => Ok (length h) h.

(** The text [printf("%d", v)] produces. *)
Definition fmt_d (v : Z) : string := NilZero.string_of_int (Z.to_int v).

Definition space : string := String " "%char EmptyString.
Definition newline : string := String "010"%char EmptyString.

(** The loop [for (int i=1; i <= length; i++) printf("%d ", values[i]);]
    of [print] followed by its [printf("\n")], from the index [i] on.
    The result is the text written to standard output. *)
Fixpoint print_loop (fuel : nat) (i : Z) : M string :=
  match fuel with
  | O => timeout
  | S fuel' =>
      len <- get_length ;;
      if i <=? len then
        v <- rd i ;;
        rest <- print_loop fuel' (wrap (i + 1)) ;;
        ret (append (fmt_d v) (append space rest))
      else ret newline
  end.

(** [void print(int *values)] *)
Definition print (fuel : nat) : M string := print_loop fuel 1.

(** ** Reading results *)

Definition result_cells {A} (r : outcome A) : option (list Z) :=
  match r with Ok _ h => Some (cells h) | _ => None end.

(** A state holding the array [l], with both globals zero and no access
    made yet. *)
Definition fresh (l : list Z) : heap := mkHeap l 0 0 [].

(** ** Specification vocabulary *)

(** The value in slot [k] of an array. *)
Definition sel (a : list Z) (k : Z) : Z := nth (Z.to_nat k) a 0.

(** [in_subtree i k]: node [k] lies in the subtree rooted at [i], that
    is, [i] is reached from [k] by following [parent] some number of
    times (possibly none). *)
Definition in_subtree (i k : Z) : Prop :=
  exists d : nat, Nat.iter d parent k = i.

(** The max-heap property of the subtree rooted at [i], restricted to
    the live region [1..hs]. *)
Definition max_heap_sub (a : list Z) (hs i : Z) : Prop :=
  forall k, in_subtree i k -> k <> i -> k <= hs ->
            sel a k <= sel a (parent k).

(** The max-heap property of the whole live region [1..hs]. *)
Definition max_heap (a : list Z) (hs : Z) : Prop :=
  forall k, 2 <= k <= hs -> sel a (k / 2) >= sel a k.

(** The values of the live region [1..n], in array order. *)
Definition live (n : Z) (a : list Z) : list Z :=
  firstn (Z.to_nat n) (skipn 1 a).

(** The array has a slot for each of the indices [0..n], and the child
    indices of every node up to [n] are representable as [int]. *)
Definition room (n : Z) (a : list Z) : Prop :=
  n < Z.of_nat (List.length a) /\ 2 * n + 1 <= INT_MAX.

(** Equality of the state a C++ observer has: array and globals. *)
Definition same_memory (h1 h2 : heap) : Prop :=
  cells h1 = cells h2 /\ length h1 = length h2 /\ heap_size h1 = heap_size h2.

(** The array after [tmp = a[x]; a[x] = a[y]; a[y] = tmp]. *)
Definition exchange (a : list Z) (x y : Z) : list Z :=
  upd (upd a (Z.to_nat x) (sel a y)) (Z.to_nat y) (sel a x).

(** [log_ext P l0 l]: [l] extends [l0] by accesses whose index
    satisfies [P]. *)
Inductive log_ext (P : Z -> Prop) (l0 : list access) : list access -> Prop :=
| ext_refl : log_ext P l0 l0
| ext_cons e l : P (idx e) -> log_ext P l0 l -> log_ext P l0 (e :: l).

(** Every node above [k] is the root of a heap. *)
Definition heaps_above (a : list Z) (hs k : Z) : Prop :=
  forall j, k < j -> max_heap_sub a hs j.

(** The line of text that shows the values [vs]: each one in decimal
    followed by a space, then a newline. *)
Definition render (vs : list Z) : string :=
  fold_right (fun v s => append (fmt_d v) (append space s)) newline vs.

(** The reads of the slots [s], [s+1], ... ([m] of them), most recent
    first. *)
Definition reads_from (s m : nat) : list access :=
  rev (map (fun k => Rd (Z.of_nat k)) (seq s m)).

Definition is_read (e : access) : bool :=
  match e with Rd _ => true | Wr _ => false end.

(** ** Contracts of the routines *)

(** What a call of [heapfy] at [i] achieves. *)
Record heapfy_post (i : Z) (h h' : heap) : Prop := {
  post_length : length h' = length h;
  post_heap_size : heap_size h' = heap_size h;
  post_capacity : List.length (cells h') = List.length (cells h);
  post_perm : Permutation (cells h) (cells h');
  post_frame : forall k, ~ (in_subtree i k /\ k <= heap_size h) ->
                         sel (cells h') k = sel (cells h) k;
  post_log : log_ext (fun k => in_subtree i k /\ k <= heap_size h)
                     (log h) (log h');
  post_bound : forall m,
      (forall k, in_subtree i k -> k <= heap_size h -> sel (cells h) k <= m) ->
      forall k, in_subtree i k -> k <= heap_size h -> sel (cells h') k <= m;
  post_heap : max_heap_sub (cells h) (heap_size h) (2 * i) ->
              max_heap_sub (cells h) (heap_size h) (2 * i + 1) ->
              max_heap_sub (cells h') (heap_size h) i
}.

(** What either loop preserves. *)
Record loop_post (h h' : heap) : Prop := {
  loop_length : length h' = length h;
  loop_capacity : List.length (cells h') = List.length (cells h);
  loop_perm : Permutation (cells h) (cells h');
  loop_frame : forall k, ~ (1 <= k <= heap_size h) ->
                         sel (cells h') k = sel (cells h) k
}.

(** What [build] establishes. *)
Record build_post (n : Z) (h h' : heap) : Prop := {
  built_heap_size : heap_size h' = n;
  built_length : length h' = n;
  built_capacity : List.length (cells h') = List.length (cells h);
  built_sentinel : sel (cells h') 0 = -1;
  built_perm : Permutation (upd (cells h) 0 (-1)) (cells h');
  built_frame : forall k, n < k -> sel (cells h') k = sel (cells h) k;
  built_heap : max_heap (cells h') n
}.

(** The invariant of the [heapsort] loop. *)
Record sort_inv (n : Z) (h : heap) : Prop := {
  inv_range : 0 <= heap_size h <= n;
  inv_room : room n (cells h);
  inv_heap : max_heap_sub (cells h) (heap_size h) 1;
  inv_sorted : forall k, heap_size h < k < n ->
                         sel (cells h) k <= sel (cells h) (k + 1);
  inv_split : forall j k, 1 <= j <= heap_size h -> heap_size h < k <= n ->
                          sel (cells h) j <= sel (cells h) k
}.

(** What [heapsort] establishes. *)
Record sort_post (n : Z) (h h' : heap) : Prop := {
  sorted_heap_size : heap_size h' = 0;
  sorted_length : length h' = n;
  sorted_capacity : List.length (cells h') = List.length (cells h);
  sorted_sentinel : sel (cells h') 0 = -1;
  sorted_perm : Permutation (live n (cells h)) (live n (cells h'));
  sorted_frame : forall k, n < k -> sel (cells h') k = sel (cells h) k;
  sorted_order : forall k, 1 <= k < n ->
                           sel (cells h') k <= sel (cells h') (k + 1)
}.

(** ** Deciding the subtree predicates *)

(** [in_subtreeb fuel i k]: [i] is met within [fuel] steps up from [k]. *)
Fixpoint in_subtreeb (fuel : nat) (i k : Z) : bool :=
  (k =? i) ||
  match fuel with
  | O => false
  | S f => (i <? k) && in_subtreeb f i (parent k)
  end.

Definition max_heap_subb (a : list Z) (hs i : Z) : bool :=
  forallb (fun k => implb (in_subtreeb (Z.to_nat k) i k && negb (k =? i))
                          (sel a k <=? sel a (parent k)))
          (map Z.of_nat (seq 1 (Z.to_nat hs))).

(** ** Sample states *)

(** A seven-node heap whose root alone is out of place. *)
Definition demo_heap : heap := mkHeap [-1; 1; 9; 8; 7; 6; 5; 4] 7 7 [].

(** An unordered five-element array, globals not yet set. *)
Definition demo_input : heap := fresh [-1; 3; 5; 1; 4; 2].

(** A two-element heap and an index whose child indices overflow [int]. *)
Definition small_heap : heap := mkHeap [-1; 5; 3] 2 2 [].
Definition far_index : Z := 1073741824.

(** An array whose slot 0 does not hold the sentinel value. *)
Definition unsentineled : heap := fresh [7; 3].

(** A three-slot array on which the driver has set [length] beyond the
    capacity. *)
Definition overlong : heap := mkHeap [-1; 5; 3] 4 2 [].

(** An array with slots [0..2^30]: slot [2^30] holds 1, the others 0. *)
Definition huge_array : list Z := repeat 0 (Z.to_nat far_index) ++ [1].

(** The array above with [2^30] elements declared live. *)
Definition huge_leaf : heap := mkHeap huge_array far_index far_index [].

(** The array above before any call, globals not yet set. *)
Definition huge_input : heap := fresh huge_array.

(** * Part II: properties *)

(** ** Scenarios of the specification *)

(** The scenarios of the specification (slot 0 is the sentinel slot). *)
Example sort_descending :
  result_cells (heapsort 20 5 (fresh [-1; 5; 4; 3; 2; 1]))
  = Some [-1; 1; 2; 3; 4; 5].
Proof. reflexivity. Qed.

Example sort_ascending :
  result_cells (heapsort 20 5 (fresh [-1; 1; 2; 3; 4; 5]))
  = Some [-1; 1; 2; 3; 4; 5].
Proof. reflexivity. Qed.

Example sort_duplicates :
  result_cells (heapsort 20 5 (fresh [-1; 4; 4; 4; 2; 2]))
  = Some [-1; 2; 2; 4; 4; 4].
Proof. reflexivity. Qed.

Example sort_single :
  result_cells (heapsort 20 1 (fresh [-1; 42])) = Some [-1; 42].
Proof. reflexivity. Qed.

Example build_cormen :
  result_cells (build 20 6 (fresh [-1; 5; 3; 17; 10; 84; 19; 6; 22; 9]))
  = Some [-1; 84; 10; 19; 5; 3; 17; 6; 22; 9].
Proof. reflexivity. Qed.

(** ** Index arithmetic *)

Lemma wrap_small (x : Z) : INT_MIN <= x <= INT_MAX -> wrap x = x.
Proof.
  unfold wrap, INT_MIN, INT_MAX. intros H.
  rewrite Z.mod_small by lia. lia.
Qed.

Lemma parent_div (k : Z) : parent k = k / 2.
Proof. unfold parent. now rewrite Z.shiftr_div_pow2 by lia. Qed.

Lemma left_small (i : Z) : 0 <= i -> 2 * i + 1 <= INT_MAX -> left i = 2 * i.
Proof.
  intros H0 H1. unfold left. rewrite Z.shiftl_mul_pow2 by lia.
  change (2 ^ 1) with 2. rewrite wrap_small; unfold INT_MIN, INT_MAX in *; lia.
Qed.

Lemma right_small (i : Z) :
  0 <= i -> 2 * i + 1 <= INT_MAX -> right i = 2 * i + 1.
Proof.
  intros H0 H1. unfold right. fold (left i). rewrite left_small by assumption.
  rewrite wrap_small; unfold INT_MIN, INT_MAX in *; lia.
Qed.

Lemma parent_even (i : Z) : parent (2 * i) = i.
Proof. rewrite parent_div. rewrite Z.mul_comm. apply Z.div_mul. lia. Qed.

Lemma parent_odd (i : Z) : parent (2 * i + 1) = i.
Proof.
  rewrite parent_div. rewrite Z.mul_comm, Z.div_add_l by lia.
  change (1 / 2) with 0. lia.
Qed.

Lemma parent_child (k : Z) : k = 2 * parent k \/ k = 2 * parent k + 1.
Proof.
  rewrite parent_div. pose proof (Z.div_mod k 2 ltac:(lia)).
  pose proof (Z.mod_pos_bound k 2 ltac:(lia)). lia.
Qed.

Lemma parent_lt (k : Z) : 1 <= k -> 0 <= parent k < k.
Proof. intros H. pose proof (parent_child k). lia. Qed.

(** ** The subtree relation *)

Lemma in_subtree_refl (i : Z) : in_subtree i i.
Proof. now exists 0%nat. Qed.

Lemma in_subtree_parent (i k : Z) :
  in_subtree i (parent k) -> in_subtree i k.
Proof.
  intros [d Hd]. exists (S d). now rewrite Nat.iter_succ_r.
Qed.

Lemma in_subtree_trans (i j k : Z) :
  in_subtree i j -> in_subtree j k -> in_subtree i k.
Proof.
  intros [d1 H1] [d2 H2]. exists (d1 + d2)%nat.
  rewrite Nat.iter_add. now rewrite H2.
Qed.

Lemma in_subtree_left (i : Z) : in_subtree i (2 * i).
Proof. exists 1%nat. simpl. apply parent_even. Qed.

Lemma in_subtree_right (i : Z) : in_subtree i (2 * i + 1).
Proof. exists 1%nat. simpl. apply parent_odd. Qed.

Lemma iter_parent_le (d : nat) (k : Z) : 0 <= k -> 0 <= Nat.iter d parent k <= k.
Proof.
  intros Hk. induction d as [|d IH]; simpl; [lia|].
  pose proof (parent_child (Nat.iter d parent k)). lia.
Qed.

Lemma iter_parent_neg (d : nat) (k : Z) : k < 0 -> Nat.iter d parent k < 0.
Proof.
  intros Hk. induction d as [|d IH]; simpl; [lia|].
  pose proof (parent_child (Nat.iter d parent k)). lia.
Qed.

Lemma in_subtree_le (i k : Z) : 1 <= i -> in_subtree i k -> i <= k.
Proof.
  intros Hi [d Hd]. destruct (Z.lt_ge_cases k 0) as [N|N].
  - pose proof (iter_parent_neg d k N). lia.
  - pose proof (iter_parent_le d k N). lia.
Qed.

Lemma in_subtree_step (i k : Z) :
  in_subtree i k -> k <> i -> in_subtree i (parent k).
Proof.
  intros [d Hd] Hne. destruct d as [|d]; simpl in Hd; [congruence|].
  exists d. now rewrite <- Nat.iter_succ_r.
Qed.

Lemma in_subtree_child (i k : Z) :
  in_subtree i k -> k <> i ->
  in_subtree (2 * i) k \/ in_subtree (2 * i + 1) k.
Proof.
  intros [d Hd] Hne. destruct d as [|d]; simpl in Hd; [congruence|].
  destruct (parent_child (Nat.iter d parent k)) as [E|E]; rewrite Hd in E.
  - left. now exists d.
  - right. now exists d.
Qed.

Lemma in_subtree_below (i k : Z) :
  1 <= i -> in_subtree i k -> k <> i -> 2 * i <= k.
Proof.
  intros Hi Hk Hne.
  destruct (in_subtree_child i k Hk Hne) as [H|H];
    apply in_subtree_le in H; lia.
Qed.

(** Two ancestors of one node lie on one branch. *)
Lemma in_subtree_comparable (i j k : Z) :
  in_subtree i k -> in_subtree j k -> in_subtree i j \/ in_subtree j i.
Proof.
  intros [d1 H1] [d2 H2]. destruct (Nat.le_gt_cases d2 d1) as [L|L].
  - left. exists (d1 - d2)%nat. rewrite <- H2, <- Nat.iter_add.
    now replace (d1 - d2 + d2)%nat with d1 by lia.
  - right. exists (d2 - d1)%nat. rewrite <- H1, <- Nat.iter_add.
    now replace (d2 - d1 + d1)%nat with d2 by lia.
Qed.

Lemma in_subtree_dec (i k : Z) :
  1 <= i -> in_subtree i k \/ ~ in_subtree i k.
Proof.
  intros Hi. destruct (Z.lt_ge_cases k i) as [L|L].
  { right. intros H. apply in_subtree_le in H; lia. }
  revert L. induction k as [k IH] using (well_founded_induction (Z.lt_wf i)).
  intros L.
  destruct (Z.eq_dec k i) as [->|Hne]; [left; apply in_subtree_refl|].
  destruct (Z.lt_ge_cases (parent k) i) as [P|P].
  - right. intros H. apply in_subtree_step in H; [|assumption].
    apply in_subtree_le in H; lia.
  - pose proof (parent_lt k ltac:(lia)) as Hp.
    destruct (IH (parent k) ltac:(lia) P) as [Y|N].
    + left. now apply in_subtree_parent.
    + right. intros Hs. apply N. now apply in_subtree_step.
Qed.

Lemma in_subtree_siblings (i k : Z) :
  1 <= i -> in_subtree (2 * i) k -> in_subtree (2 * i + 1) k -> False.
Proof.
  intros Hi H1 H2.
  destruct (in_subtree_comparable _ _ _ H1 H2) as [H|H].
  - pose proof (in_subtree_below (2 * i) (2 * i + 1) ltac:(lia) H ltac:(lia)).
    lia.
  - apply in_subtree_le in H; lia.
Qed.

Lemma in_subtree_root (k : Z) : 1 <= k -> in_subtree 1 k.
Proof.
  induction k as [k IH] using (well_founded_induction (Z.lt_wf 1)). intros Hk.
  destruct (Z.eq_dec k 1) as [->|Hne]; [apply in_subtree_refl|].
  apply in_subtree_parent. pose proof (parent_child k).
  apply IH; lia.
Qed.

(** ** Array cells *)

Lemma upd_length (l : list Z) (n : nat) (v : Z) :
  List.length (upd l n v) = List.length l.
Proof.
  revert n. induction l as [|x l IH]; intros [|n]; simpl; auto.
Qed.

Lemma nth_upd_same (l : list Z) (n : nat) (v d : Z) :
  (n < List.length l)%nat -> nth n (upd l n v) d = v.
Proof.
  revert n. induction l as [|x l IH]; intros [|n]; simpl; intros H;
    try lia; auto. apply IH. lia.
Qed.

Lemma nth_upd_other (l : list Z) (n m : nat) (v d : Z) :
  n <> m -> nth m (upd l n v) d = nth m l d.
Proof.
  revert n m. induction l as [|x l IH]; intros [|n] [|m] H; simpl; auto;
    try congruence.
Qed.


Lemma upd_perm_one (l : list Z) (k : nat) (x d : Z) :
  (k < List.length l)%nat ->
  Permutation (nth k l d :: upd l k x) (x :: l).
Proof.
  revert k. induction l as [|y l IH]; intros [|k] H; simpl in *; try lia.
  - apply perm_swap.
  - eapply perm_trans; [apply perm_swap|].
    eapply perm_trans; [apply perm_skip, IH; lia|]. apply perm_swap.
Qed.

(** Exchanging the contents of two slots permutes the array. *)
Lemma upd_exchange_perm (l : list Z) (i j : nat) (d : Z) :
  (i < List.length l)%nat -> (j < List.length l)%nat ->
  Permutation l (upd (upd l i (nth j l d)) j (nth i l d)).
Proof.
  revert i j. induction l as [|y l IH]; intros [|i] [|j] Hi Hj;
    simpl in *; try lia.
  - apply Permutation_refl.
  - symmetry. apply upd_perm_one. lia.
  - symmetry. apply upd_perm_one. lia.
  - apply perm_skip, IH; lia.
Qed.

Section Exchange.
Variables (a : list Z) (x y : Z).
Hypothesis Hx : 0 <= x < Z.of_nat (List.length a).
Hypothesis Hy : 0 <= y < Z.of_nat (List.length a).

Lemma exchange_length : List.length (exchange a x y) = List.length a.
Proof. unfold exchange. now rewrite !upd_length. Qed.

Lemma exchange_perm : Permutation a (exchange a x y).
Proof. unfold exchange, sel. apply upd_exchange_perm; lia. Qed.

Lemma sel_exchange_snd : sel (exchange a x y) y = sel a x.
Proof.
  unfold exchange, sel. apply nth_upd_same. rewrite upd_length. lia.
Qed.

Lemma sel_exchange_fst : sel (exchange a x y) x = sel a y.
Proof.
  unfold exchange, sel. destruct (Z.eq_dec x y) as [E|Hne].
  - rewrite E. apply nth_upd_same. rewrite upd_length. lia.
  - rewrite nth_upd_other by lia. apply nth_upd_same. lia.
Qed.

Lemma sel_exchange_other (k : Z) :
  Z.to_nat k <> Z.to_nat x -> Z.to_nat k <> Z.to_nat y ->
  sel (exchange a x y) k = sel a k.
Proof.
  intros H1 H2. unfold exchange, sel.
  rewrite !nth_upd_other by congruence. reflexivity.
Qed.
End Exchange.

(** ** Access logs *)

Lemma log_ext_trans (P : Z -> Prop) (l0 l1 l2 : list access) :
  log_ext P l0 l1 -> log_ext P l1 l2 -> log_ext P l0 l2.
Proof.
  intros H1 H2. induction H2; [assumption|]. now constructor.
Qed.

Lemma log_ext_weaken (P Q : Z -> Prop) (l0 l : list access) :
  (forall k, P k -> Q k) -> log_ext P l0 l -> log_ext Q l0 l.
Proof.
  intros HPQ H. induction H; constructor; auto.
Qed.

Lemma log_ext_app (P : Z -> Prop) (l0 l : list access) :
  log_ext P l0 l ->
  exists new, l = new ++ l0 /\ Forall (fun e => P (idx e)) new.
Proof.
  intros H. induction H as [|e l He _ [new [-> Hn]]].
  - now exists [].
  - exists (e :: new). split; [reflexivity|]. now constructor.
Qed.

(** ** Single steps *)

Lemma rd_ok (i : Z) (h : heap) :
  0 <= i < Z.of_nat (List.length (cells h)) ->
  rd i h = Ok (sel (cells h) i)
              (mkHeap (cells h) (length h) (heap_size h) (Rd i :: log h)).
Proof.
  intros H. unfold rd, sel.
  destruct (Z.leb_spec 0 i); [|lia].
  destruct (nth_error (cells h) (Z.to_nat i)) as [v|] eqn:E.
  - now rewrite (nth_error_nth _ _ 0 E).
  - apply nth_error_None in E. lia.
Qed.

Lemma wr_ok (i v : Z) (h : heap) :
  0 <= i < Z.of_nat (List.length (cells h)) ->
  wr i v h = Ok tt (mkHeap (upd (cells h) (Z.to_nat i) v) (length h)
                           (heap_size h) (Wr i :: log h)).
Proof.
  intros H. unfold wr.
  destruct (Z.leb_spec 0 i); [|lia].
  destruct (Z.ltb_spec i (Z.of_nat (List.length (cells h)))); [|lia].
  reflexivity.
Qed.

(** The exchange of two slots, as [heapfy] and [heapsort] write it. *)
Lemma exchange_ok {A} (x y : Z) (k : M A) (h : heap) :
  0 <= x < Z.of_nat (List.length (cells h)) ->
  0 <= y < Z.of_nat (List.length (cells h)) ->
  (tmp <- rd x ;; v <- rd y ;; wr x v ;;; wr y tmp ;;; k) h
  = k (mkHeap (exchange (cells h) x y) (length h) (heap_size h)
              (Wr y :: Wr x :: Rd y :: Rd x :: log h)).
Proof.
  intros Hx Hy. unfold bind at 1. rewrite rd_ok by assumption.
  unfold bind at 1. rewrite rd_ok by assumption.
  unfold bind at 1. rewrite wr_ok by assumption.
  unfold bind at 1. rewrite wr_ok by (simpl; rewrite upd_length; assumption).
  reflexivity.
Qed.

(** ** [heapfy] *)

Ltac step_rd :=
  rewrite rd_ok by (cbn [cells]; lia); cbv beta iota;
  cbn [cells heap_size length log].

(** The largest-of-three selection: no cell is modified, only [i] and
    its children inside the live region are read, and the index
    returned holds a value that is no smaller than the three. *)
Lemma pick_largest_spec (i : Z) (h : heap) :
  1 <= i -> 2 * i + 1 <= INT_MAX ->
  heap_size h < Z.of_nat (List.length (cells h)) ->
  exists j h1,
    pick_largest i h = Ok j h1 /\
    cells h1 = cells h /\ length h1 = length h /\
    heap_size h1 = heap_size h /\
    log_ext (fun k => (k = i \/ k = 2 * i \/ k = 2 * i + 1)
                      /\ k <= heap_size h) (log h) (log h1) /\
    (j = i \/ ((j = 2 * i \/ j = 2 * i + 1) /\ j <= heap_size h
               /\ sel (cells h) i < sel (cells h) j)) /\
    sel (cells h) i <= sel (cells h) j /\
    (2 * i <= heap_size h -> sel (cells h) (2 * i) <= sel (cells h) j) /\
    (2 * i + 1 <= heap_size h ->
     sel (cells h) (2 * i + 1) <= sel (cells h) j).
Proof.
  intros Hi Hmax Hlen. unfold pick_largest.
  rewrite left_small, right_small by lia.
  unfold bind, get_heap_size, ret.
  destruct (Z.leb_spec (2 * i) (heap_size h)) as [L|L].
  - do 2 step_rd.
    destruct (Z.ltb_spec (sel (cells h) i) (sel (cells h) (2 * i))) as [C|C];
      (destruct (Z.leb_spec (2 * i + 1) (heap_size h)) as [R|R];
       [ do 2 step_rd;
         match goal with
         | |- context [?x <? ?y] => destruct (Z.ltb_spec x y) as [D|D]
         end | ]);
      do 2 eexists; (split; [reflexivity|]); cbn [cells heap_size length log];
      repeat split; try lia; repeat (constructor; cbn [idx]; try lia).
  - destruct (Z.leb_spec (2 * i + 1) (heap_size h)) as [R|R]; [lia|].
    do 2 eexists; (split; [reflexivity|]); cbn [cells heap_size length log];
      repeat split; try lia; constructor.
Qed.

(** *** Facts on the heap property of a subtree *)

(** The root of a heap-ordered subtree holds its largest live value. *)
Lemma root_max (a : list Z) (hs r : Z) :
  1 <= r -> max_heap_sub a hs r ->
  forall k, in_subtree r k -> k <= hs -> sel a k <= sel a r.
Proof.
  intros Hr Hheap k [d Hd]. revert k Hd.
  induction d as [|d IH]; intros k Hd Hk.
  - simpl in Hd. subst. lia.
  - destruct (Z.eq_dec k r) as [->|Hne]; [lia|].
    assert (Hin : in_subtree r k) by (exists (S d); exact Hd).
    pose proof (in_subtree_le r k Hr Hin) as Hle.
    pose proof (parent_lt k ltac:(lia)) as Hp.
    rewrite Nat.iter_succ_r in Hd.
    specialize (IH (parent k) Hd ltac:(lia)).
    specialize (Hheap k Hin Hne Hk). lia.
Qed.

(** A node whose children are roots of heaps and hold no larger value
    is the root of a heap. *)
Lemma node_heap (a : list Z) (hs i : Z) :
  1 <= i ->
  (2 * i <= hs -> sel a (2 * i) <= sel a i) ->
  (2 * i + 1 <= hs -> sel a (2 * i + 1) <= sel a i) ->
  max_heap_sub a hs (2 * i) -> max_heap_sub a hs (2 * i + 1) ->
  max_heap_sub a hs i.
Proof.
  intros Hi Hl Hr Hhl Hhr k Hin Hne Hk.
  destruct (in_subtree_child i k Hin Hne) as [Hc|Hc].
  - destruct (Z.eq_dec k (2 * i)) as [->|Hn2].
    + rewrite parent_even. auto.
    + now apply Hhl.
  - destruct (Z.eq_dec k (2 * i + 1)) as [->|Hn2].
    + rewrite parent_odd. auto.
    + now apply Hhr.
Qed.

(** The heap property of a subtree carries over to any array that
    agrees on the live nodes of a subtree inside it. *)
Lemma max_heap_sub_transfer (a b : list Z) (hs r s : Z) :
  1 <= r -> in_subtree r s -> max_heap_sub a hs r ->
  (forall k, in_subtree s k -> k <= hs -> sel b k = sel a k) ->
  max_heap_sub b hs s.
Proof.
  intros Hr Hrs Hheap Hagree k Hin Hne Hk.
  pose proof (in_subtree_le r s Hr Hrs) as Hle.
  pose proof (in_subtree_below s k ltac:(lia) Hin Hne) as Hbelow.
  pose proof (parent_lt k ltac:(lia)) as Hp.
  rewrite (Hagree k Hin Hk).
  rewrite (Hagree (parent k) (in_subtree_step s k Hin Hne) ltac:(lia)).
  apply Hheap; [eapply in_subtree_trans; eassumption | lia | assumption].
Qed.

(** A node with no live child is the root of a heap. *)
Lemma leaf_heap (a : list Z) (hs i : Z) :
  1 <= i -> hs < 2 * i -> max_heap_sub a hs i.
Proof.
  intros Hi Hleaf k Hin Hne Hk.
  pose proof (in_subtree_below i k Hi Hin Hne). lia.
Qed.

(** The whole-region property is the subtree property at the root. *)
Lemma max_heap_root (a : list Z) (hs : Z) :
  max_heap a hs <-> max_heap_sub a hs 1.
Proof.
  split.
  - intros H k Hin Hne Hk. pose proof (in_subtree_le 1 k ltac:(lia) Hin).
    rewrite parent_div. specialize (H k ltac:(lia)). lia.
  - intros H k Hk. rewrite <- parent_div.
    specialize (H k (in_subtree_root k ltac:(lia)) ltac:(lia) ltac:(lia)). lia.
Qed.

(** *** The contract of [heapfy] *)

Lemma to_nat_neq (k i : Z) : 1 <= i -> k <> i -> Z.to_nat k <> Z.to_nat i.
Proof. lia. Qed.

Lemma heapfy_spec (fuel : nat) :
  forall (i : Z) (h : heap),
    1 <= i -> 2 * i + 1 <= INT_MAX -> room (heap_size h) (cells h) ->
    Z.max 0 (heap_size h - i) < Z.of_nat fuel ->
    exists h', heapfy fuel i h = Ok tt h' /\ heapfy_post i h h'.
Proof.
  induction fuel as [|fuel IH]; intros i h Hi Hmax [Hlen Hfit] Hfuel; [lia|].
  destruct (pick_largest_spec i h Hi Hmax Hlen)
    as (j & h1 & Hpick & Hc & Hl & Hs & Hlog & Hj & Hij & Hjl & Hjr).
  cbn [heapfy]. unfold bind at 1. rewrite Hpick.
  assert (Hlog1 : log_ext (fun k => in_subtree i k /\ k <= heap_size h)
                          (log h) (log h1)).
  { eapply log_ext_weaken; [|exact Hlog]. cbv beta.
    intros k [[ -> | [ -> | -> ]] Hk]; split; try assumption.
    - apply in_subtree_refl.
    - apply in_subtree_left.
    - apply in_subtree_right. }
  destruct (Z.eqb_spec j i) as [->|Hne].
  - (* [a[i]] is already the largest: nothing is written *)
    exists h1. split; [reflexivity|].
    constructor; rewrite ?Hc; try assumption; try reflexivity; auto.
    intros Hhl Hhr. apply node_heap; assumption.
  - (* exchange with the larger child [j], then descend *)
    destruct Hj as [?|(Hchild & Hjhs & Hlt)]; [contradiction|].
    assert (Hij' : i < j) by lia.
    rewrite exchange_ok by (rewrite Hc; lia).
    rewrite Hc, Hl, Hs.
    set (a := cells h) in *. set (hs := heap_size h) in *.
    set (a1 := exchange a i j).
    assert (Hbi : 0 <= i < Z.of_nat (List.length a)) by lia.
    assert (Hbj : 0 <= j < Z.of_nat (List.length a)) by lia.
    assert (Ha1i : sel a1 i = sel a j) by (apply sel_exchange_fst; assumption).
    assert (Ha1j : sel a1 j = sel a i) by (apply sel_exchange_snd; assumption).
    assert (Ha1o : forall k, k <> i -> k <> j -> sel a1 k = sel a k).
    { intros k Hki Hkj. apply sel_exchange_other; apply to_nat_neq; lia. }
    assert (Hji : in_subtree i j).
    { destruct Hchild as [->| ->];
        [apply in_subtree_left | apply in_subtree_right]. }
    match goal with
    | |- exists h', heapfy fuel j ?st = _ /\ _ => set (h2 := st)
    end.
    destruct (IH j h2) as (h' & Hrun & Hpost).
    { lia. }
    { unfold INT_MAX in *. lia. }
    { split; cbn [h2 cells heap_size]; [|assumption].
      fold a1. unfold a1. rewrite exchange_length. assumption. }
    { cbn [h2 heap_size]. lia. }
    exists h'. split; [exact Hrun|].
    destruct Hpost as [Pl Ps Pc Pp Pf Plog Pb Ph].
    cbn [h2 cells heap_size length log] in *. fold a1 in Pc, Pp, Pf, Pb, Ph.
    assert (Hout : forall k, ~ in_subtree j k -> sel (cells h') k = sel a1 k).
    { intros k Hk. apply Pf. tauto. }
    assert (Hni : ~ in_subtree j i).
    { intros H. apply in_subtree_le in H; lia. }
    constructor; change (cells h) with a; change (heap_size h) with hs.
    + assumption.
    + assumption.
    + rewrite Pc. apply exchange_length.
    + eapply perm_trans; [|exact Pp]. apply exchange_perm; assumption.
    + intros k Hk.
      assert (k <> i) by (intros ->; apply Hk; split;
                          [apply in_subtree_refl | lia]).
      assert (k <> j) by (intros ->; apply Hk; split; assumption).
      rewrite Pf, Ha1o; auto.
      intros [Hjk Hkhs]. apply Hk. split; [|assumption].
      apply in_subtree_trans with j; assumption.
    + eapply log_ext_trans; [exact Hlog1|].
      apply log_ext_trans with (l1 := Wr j :: Wr i :: Rd j :: Rd i :: log h1).
      * apply ext_cons; [|apply ext_cons; [|apply ext_cons;
            [|apply ext_cons; [|apply ext_refl]]]];
          cbn [idx]; split; try assumption; try apply in_subtree_refl; lia.
      * eapply log_ext_weaken; [|exact Plog]. cbv beta.
        intros k [Hjk Hk]. split; [|assumption].
        apply in_subtree_trans with j; assumption.
    + intros m Hm k Hik Hk.
      destruct (in_subtree_dec j k ltac:(lia)) as [Hjk|Hjk].
      * apply Pb; [|assumption|assumption].
        intros k' Hjk' Hk'.
        destruct (Z.eq_dec k' j) as [->|Hne'].
        -- rewrite Ha1j. apply Hm; [apply in_subtree_refl | lia].
        -- pose proof (in_subtree_le j k' ltac:(lia) Hjk').
           rewrite Ha1o by lia. apply Hm; [|assumption].
           apply in_subtree_trans with j; assumption.
      * rewrite (Hout k Hjk).
        destruct (Z.eq_dec k i) as [->|Hki].
        -- rewrite Ha1i. apply Hm; assumption.
        -- rewrite Ha1o; [apply Hm; assumption | assumption |].
           intros ->. apply Hjk, in_subtree_refl.
    + intros Hhl Hhr.
      assert (Hhj : max_heap_sub a hs j) by (destruct Hchild as [->| ->]; assumption).
      assert (Hroot : sel (cells h') i = sel a j).
      { rewrite (Hout i Hni). exact Ha1i. }
      assert (Hh'j : max_heap_sub (cells h') hs j).
      { apply Ph; apply (max_heap_sub_transfer a a1 hs j); try lia;
          try assumption;
          [apply in_subtree_left | | apply in_subtree_right | ];
          intros k Hk _; apply in_subtree_le in Hk; try lia;
          apply Ha1o; lia. }
      assert (Hj' : sel (cells h') j <= sel a j).
      { apply Pb; [|apply in_subtree_refl|assumption].
        intros k' Hjk' Hk'.
        destruct (Z.eq_dec k' j) as [->|Hne'].
        - rewrite Ha1j. lia.
        - pose proof (in_subtree_le j k' ltac:(lia) Hjk').
          rewrite Ha1o by lia.
          apply (root_max a hs j); try assumption; lia. }
      assert (Hsib : forall c, (c = 2 * i \/ c = 2 * i + 1) -> c <> j ->
                     max_heap_sub a hs c ->
                     max_heap_sub (cells h') hs c /\
                     (c <= hs -> sel (cells h') c <= sel a j)).
      { intros c Hc' Hcj Hhc.
        assert (Hdis : forall k, in_subtree c k -> ~ in_subtree j k).
        { intros k H1 H2.
          destruct Hc' as [->| ->]; destruct Hchild as [->| ->];
            try congruence;
            eapply (in_subtree_siblings i k); eassumption. }
        assert (Hsame : forall k, in_subtree c k -> sel (cells h') k = sel a k).
        { intros k Hck. rewrite (Hout k (Hdis k Hck)).
          pose proof (in_subtree_le c k ltac:(lia) Hck).
          apply Ha1o; [lia|]. intros ->. apply (Hdis j Hck), in_subtree_refl. }
        split.
        - apply (max_heap_sub_transfer a _ hs c c); try assumption; try lia.
          + apply in_subtree_refl.
          + intros k Hck _. now apply Hsame.
        - intros Hle. rewrite (Hsame c (in_subtree_refl c)).
          destruct Hc' as [->| ->]; auto. }
      apply node_heap; try assumption; rewrite ?Hroot.
      * destruct (Z.eq_dec (2 * i) j) as [E|E];
          [rewrite E; intros; exact Hj' | apply Hsib; auto].
      * destruct (Z.eq_dec (2 * i + 1) j) as [E|E];
          [rewrite E; intros; exact Hj' | apply Hsib; auto].
      * destruct (Z.eq_dec (2 * i) j) as [E|E];
          [rewrite E; exact Hh'j | apply Hsib; auto].
      * destruct (Z.eq_dec (2 * i + 1) j) as [E|E];
          [rewrite E; exact Hh'j | apply Hsib; auto].
Qed.

(** *** Calls at an arbitrary [int] index *)

Lemma left_cases (i : Z) :
  1 <= i <= INT_MAX ->
  (left i = 2 * i /\ 2 * i + 1 <= INT_MAX) \/
  (left i = 2 * i - 4294967296 /\ INT_MAX < 2 * i).
Proof.
  unfold left, wrap, INT_MAX. intros Hi. rewrite Z.shiftl_mul_pow2 by lia.
  change (2 ^ 1) with 2.
  pose proof (Z.div_mod (i * 2 + 2147483648) 4294967296 ltac:(lia)) as E.
  pose proof (Z.mod_pos_bound (i * 2 + 2147483648) 4294967296 ltac:(lia)) as B.
  lia.
Qed.

Lemma left_nonneg (i : Z) :
  1 <= i <= INT_MAX -> 0 <= left i -> left i = 2 * i /\ 2 * i + 1 <= INT_MAX.
Proof.
  intros Hi. destruct (left_cases i Hi) as [[-> H]|[-> H]];
    unfold INT_MAX in *; lia.
Qed.

Lemma right_nonneg (i : Z) :
  1 <= i <= INT_MAX ->
  0 <= right i -> right i = 2 * i + 1 /\ 2 * i + 1 <= INT_MAX.
Proof.
  intros Hi. unfold right. fold (left i).
  destruct (left_cases i Hi) as [[-> H]|[-> H]];
    rewrite wrap_small by (unfold INT_MIN, INT_MAX in *; lia);
    unfold INT_MAX in *; lia.
Qed.

Lemma rd_inv (i v : Z) (h h' : heap) :
  rd i h = Ok v h' ->
  0 <= i < Z.of_nat (List.length (cells h)) /\
  h' = mkHeap (cells h) (length h) (heap_size h) (Rd i :: log h).
Proof.
  unfold rd. destruct (Z.leb_spec 0 i); [|discriminate].
  destruct (nth_error (cells h) (Z.to_nat i)) eqn:E; [|discriminate].
  intros [= _ <-]. split; [|reflexivity].
  assert (nth_error (cells h) (Z.to_nat i) <> None) as Hn by congruence.
  apply nth_error_Some in Hn. lia.
Qed.

Lemma rd_no_timeout (i : Z) (h : heap) : rd i h <> Timeout.
Proof.
  unfold rd. destruct (0 <=? i); [|discriminate].
  destruct (nth_error (cells h) (Z.to_nat i)); discriminate.
Qed.

(** Reading two cells and choosing between two indices. *)
Lemma compare_inv (x y c d : Z) (h : heap) :
  match (u <- rd x ;; v <- rd y ;; ret (if u <? v then c else d)) h with
  | Ok j h' =>
      (j = c \/ j = d) /\ cells h' = cells h /\ length h' = length h /\
      heap_size h' = heap_size h /\
      0 <= x < Z.of_nat (List.length (cells h)) /\
      0 <= y < Z.of_nat (List.length (cells h))
  | Fault => True
  | Timeout => False
  end.
Proof.
  unfold bind, ret.
  destruct (rd x h) as [u h1| |] eqn:E1; [| exact I | now apply rd_no_timeout in E1].
  apply rd_inv in E1. destruct E1 as [Hx ->].
  match goal with |- context [rd y ?st] => destruct (rd y st) as [v h2| |] eqn:E2 end;
    [| exact I | now apply rd_no_timeout in E2].
  apply rd_inv in E2. cbn [cells length heap_size log] in E2.
  destruct E2 as [Hy ->]. cbn [cells length heap_size].
  destruct (u <? v); auto 10.
Qed.

(** Whatever the index, the selection never loops, leaves memory as it
    is, and a child it returns is a live node above [i] whose cell
    exists. *)
Lemma pick_largest_any (i : Z) (h : heap) :
  1 <= i <= INT_MAX ->
  match pick_largest i h with
  | Ok j h1 =>
      cells h1 = cells h /\ length h1 = length h /\
      heap_size h1 = heap_size h /\
      (j = i \/
       ((j = 2 * i \/ j = 2 * i + 1) /\ j <= heap_size h /\
        0 <= j < Z.of_nat (List.length (cells h)) /\
        2 * i + 1 <= INT_MAX))
  | Fault => True
  | Timeout => False
  end.
Proof.
  intros Hi. unfold pick_largest.
  unfold bind at 1. unfold get_heap_size at 1. unfold bind at 1.
  destruct (Z.leb_spec (left i) (heap_size h)) as [L|L].
  - pose proof (compare_inv i (left i) (left i) i h) as C.
    destruct ((x <- rd i ;; y <- rd (left i) ;;
               ret (if x <? y then left i else i)) h) as [j1 h1| |];
      [|exact I|contradiction].
    destruct C as (Hj1 & Hc1 & Hl1 & Hs1 & Bi & Bl).
    destruct (left_nonneg i Hi ltac:(lia)) as [El Hm].
    unfold bind at 1. unfold get_heap_size at 1. rewrite Hs1.
    destruct (Z.leb_spec (right i) (heap_size h)) as [R|R].
    + pose proof (compare_inv j1 (right i) (right i) j1 h1) as C.
      destruct ((x <- rd j1 ;; y <- rd (right i) ;;
                 ret (if x <? y then right i else j1)) h1) as [j2 h2| |];
        [|exact I|contradiction].
      destruct C as (Hj2 & Hc2 & Hl2 & Hs2 & Bj & Br).
      rewrite Hc1 in *. rewrite right_small in * by lia.
      repeat split; try congruence. lia.
    + unfold ret. repeat split; try assumption. lia.
  - unfold ret at 1. unfold bind at 1. unfold get_heap_size at 1.
    destruct (Z.leb_spec (right i) (heap_size h)) as [R|R].
    + pose proof (compare_inv i (right i) (right i) i h) as C.
      destruct ((x <- rd i ;; y <- rd (right i) ;;
                 ret (if x <? y then right i else i)) h) as [j2 h2| |];
        [|exact I|contradiction].
      destruct C as (Hj2 & Hc2 & Hl2 & Hs2 & Bi & Br).
      destruct (right_nonneg i Hi ltac:(lia)) as [Er Hm].
      repeat split; try assumption. lia.
    + unfold ret. auto.
Qed.

(** With more fuel than the array has cells, [heapfy] never runs out of
    fuel, whatever the state and the index. *)
Lemma heapfy_no_timeout (fuel : nat) :
  forall (i : Z) (h : heap),
    1 <= i <= INT_MAX ->
    Z.max 0 (Z.of_nat (List.length (cells h)) - i) < Z.of_nat fuel ->
    heapfy fuel i h <> Timeout.
Proof.
  induction fuel as [|fuel IH]; intros i h Hi Hfuel; [lia|].
  cbn [heapfy]. unfold bind at 1.
  pose proof (pick_largest_any i h Hi) as P.
  destruct (pick_largest i h) as [j h1| |]; [|discriminate|contradiction].
  destruct P as (Hc & Hl & Hs & Hj).
  destruct (Z.eqb_spec j i) as [->|Hne]; [discriminate|].
  destruct Hj as [?|(Hchild & Hjhs & Hjlen & Hm)]; [contradiction|].
  rewrite exchange_ok by (rewrite Hc; lia).
  apply IH.
  - unfold INT_MAX in *. lia.
  - cbn [cells]. rewrite exchange_length by (rewrite Hc; lia).
    rewrite Hc. lia.
Qed.

(** ** The live region as a list *)

Lemma live_perm (n : Z) (a b : list Z) :
  0 <= n -> List.length a = List.length b -> Permutation a b ->
  (forall k, ~ (1 <= k <= n) -> sel b k = sel a k) ->
  Permutation (live n a) (live n b).
Proof.
  intros Hn Hlen Hperm Hout. unfold live.
  destruct a as [|x ta], b as [|y tb]; simpl in Hlen; try discriminate.
  { simpl. rewrite firstn_nil. constructor. }
  assert (x = y) as ->.
  { specialize (Hout 0 ltac:(lia)). unfold sel in Hout. simpl in Hout.
    congruence. }
  apply Permutation_cons_inv in Hperm. simpl skipn.
  set (N := Z.to_nat n).
  assert (Hs : skipn N ta = skipn N tb).
  { apply nth_ext with (d := 0) (d' := 0).
    - rewrite !length_skipn. lia.
    - intros i _. rewrite !nth_skipn.
      specialize (Hout (Z.of_nat (S (N + i))) ltac:(lia)).
      unfold sel in Hout. rewrite Nat2Z.id in Hout. simpl in Hout.
      now symmetry. }
  rewrite <- (firstn_skipn N ta), <- (firstn_skipn N tb), Hs in Hperm.
  now apply Permutation_app_inv_r in Hperm.
Qed.

Lemma live_upd_sentinel (n : Z) (a : list Z) (v : Z) :
  live n (upd a 0 v) = live n a.
Proof. destruct a; reflexivity. Qed.

Lemma sel_upd_sentinel (a : list Z) (v k : Z) :
  1 <= k -> sel (upd a 0 v) k = sel a k.
Proof. intros Hk. unfold sel. apply nth_upd_other. lia. Qed.

(** Slots agree as options as soon as they agree as values and the
    arrays have the same capacity. *)
Lemma nth_error_sel (a b : list Z) (k : nat) :
  List.length a = List.length b ->
  sel b (Z.of_nat k) = sel a (Z.of_nat k) ->
  nth_error b k = nth_error a k.
Proof.
  intros Hlen Hsel. unfold sel in Hsel. rewrite Nat2Z.id in Hsel.
  destruct (Nat.lt_ge_cases k (List.length a)) as [L|L].
  - rewrite (nth_error_nth' b 0) by lia. rewrite (nth_error_nth' a 0) by lia.
    now rewrite Hsel.
  - assert (nth_error a k = None) as -> by (apply nth_error_None; lia).
    apply nth_error_None. lia.
Qed.

(** ** [build] *)

Lemma max_heap_sub_shrink (a : list Z) (hs hs' r : Z) :
  hs' <= hs -> max_heap_sub a hs r -> max_heap_sub a hs' r.
Proof. intros Hle H k Hin Hne Hk. apply H; auto. lia. Qed.

Lemma build_loop_spec (fuel : nat) :
  forall (k : Z) (h : heap),
    0 <= k <= heap_size h -> room (heap_size h) (cells h) ->
    heap_size h + k < Z.of_nat fuel ->
    heaps_above (cells h) (heap_size h) k ->
    exists h', build_loop fuel k h = Ok tt h' /\
               heap_size h' = heap_size h /\ loop_post h h' /\
               max_heap_sub (cells h') (heap_size h) 1.
Proof.
  induction fuel as [|fuel IH]; intros k h Hk Hroom Hfuel Habove; [lia|].
  cbn [build_loop]. destruct (Z.leb_spec 1 k) as [L|L].
  - destruct Hroom as [Hlen Hfit].
    destruct (heapfy_spec fuel k h) as (h1 & Hrun & P);
      [lia | unfold INT_MAX in *; lia | split; assumption | lia |].
    unfold bind. rewrite Hrun.
    destruct P as [Pl Ps Pc Pp Pf _ _ Ph].
    rewrite wrap_small by (unfold INT_MIN, INT_MAX in *; lia).
    destruct (IH (k - 1) h1) as (h' & Hrun' & Hs' & P' & Hheap).
    + lia.
    + unfold room. rewrite Ps, Pc. split; assumption.
    + lia.
    + rewrite Ps. intros j Hj.
      destruct (Z.eq_dec j k) as [->|Hjk].
      { apply Ph; apply Habove; lia. }
      destruct (in_subtree_dec k j ltac:(lia)) as [Y|N].
      * apply (max_heap_sub_transfer (cells h1) (cells h1) _ k j);
          [lia | assumption | apply Ph; apply Habove; lia | reflexivity].
      * apply (max_heap_sub_transfer (cells h) (cells h1) _ j j);
          [lia | apply in_subtree_refl | apply Habove; lia |].
        intros x Hx _. apply Pf. intros [Hkx _].
        destruct (in_subtree_comparable k j x Hkx Hx) as [C|C];
          [contradiction | apply in_subtree_le in C; lia].
    + exists h'. rewrite Ps in *. destruct P' as [Ql Qc Qp Qf].
      repeat split; try congruence.
      * eapply perm_trans; eassumption.
      * intros x Hx. rewrite Qf by (rewrite Ps; exact Hx). apply Pf.
        intros [Hin Hle]. apply in_subtree_le in Hin; lia.
      * assumption.
  - exists h. repeat split; auto.
Qed.

Lemma build_spec (fuel : nat) (n : Z) (h : heap) :
  0 <= n -> room n (cells h) -> 2 * n < Z.of_nat fuel ->
  exists h', build fuel n h = Ok tt h' /\ build_post n h h'.
Proof.
  intros Hn [Hlen Hfit] Hfuel. unfold build, bind, set_length, set_heap_size.
  rewrite wr_ok by (cbn [cells]; lia). cbn [cells length heap_size log].
  rewrite Z.shiftr_div_pow2 by lia. change (2 ^ 1) with 2.
  pose proof (Z.div_pos n 2 Hn ltac:(lia)) as Hd0.
  pose proof (Z.div_le_upper_bound n 2 n ltac:(lia) ltac:(lia)) as Hd1.
  match goal with
  | |- exists h', build_loop fuel _ ?st = _ /\ _ => set (h0 := st)
  end.
  destruct (build_loop_spec fuel (n / 2) h0) as (h' & Hrun & Hs & P & Hheap).
  - cbn [h0 heap_size]. lia.
  - split; cbn [h0 heap_size cells]; [rewrite upd_length|]; assumption.
  - cbn [h0 heap_size]. lia.
  - cbn [h0 heap_size cells]. intros j Hj. apply leaf_heap; [lia|].
    pose proof (Z.div_mod n 2 ltac:(lia)).
    pose proof (Z.mod_pos_bound n 2 ltac:(lia)). lia.
  - exists h'. split; [exact Hrun|].
    destruct P as [Ql Qc Qp Qf]. cbn [h0 heap_size cells length] in *.
    constructor; try assumption.
    + now rewrite Qc, upd_length.
    + rewrite Qf by lia. unfold sel. apply nth_upd_same. simpl. lia.
    + intros k Hk. rewrite Qf by lia. apply sel_upd_sentinel. lia.
    + now apply max_heap_root.
Qed.

(** ** [heapsort] *)

Lemma heapsort_loop_spec (n : Z) (fuel : nat) :
  forall h : heap,
    sort_inv n h -> heap_size h < Z.of_nat fuel ->
    exists h', heapsort_loop fuel 1 h = Ok tt h' /\
               heap_size h' = 0 /\ loop_post h h' /\
               (forall k, 1 <= k < n ->
                          sel (cells h') k <= sel (cells h') (k + 1)).
Proof.
  induction fuel as [|fuel IH]; intros h [Hr [Hlen Hfit] Hheap Hsorted Hsplit]
    Hfuel; [lia|].
  cbn [heapsort_loop]. unfold bind at 1. unfold get_heap_size at 1.
  destruct (Z.leb_spec 1 (heap_size h)) as [L|L].
  - set (a := cells h) in *. set (hs := heap_size h) in *.
    assert (Hbh : 0 <= hs < Z.of_nat (List.length a)) by lia.
    assert (Hb1 : 0 <= 1 < Z.of_nat (List.length a)) by lia.
    rewrite exchange_ok by assumption. fold a.
    unfold bind at 1. unfold set_heap_size at 1. cbn [cells length log].
    rewrite wrap_small by (unfold INT_MIN, INT_MAX in *; lia).
    set (a1 := exchange a hs 1).
    assert (Ha1h : sel a1 hs = sel a 1) by (apply sel_exchange_fst; assumption).
    assert (Ha11 : sel a1 1 = sel a hs) by (apply sel_exchange_snd; assumption).
    assert (Ha1o : forall k, k <> hs -> k <> 1 -> sel a1 k = sel a k).
    { intros k H1 H2. apply sel_exchange_other; apply to_nat_neq; lia. }
    assert (Hmax : forall k, 1 <= k <= hs -> sel a k <= sel a 1).
    { intros k Hk. apply (root_max a hs 1); try assumption; try lia.
      apply in_subtree_root. lia. }
    unfold bind at 1.
    match goal with
    | |- context [heapfy fuel 1 ?st] => set (h2 := st)
    end.
    destruct (heapfy_spec fuel 1 h2) as (h3 & Hrun & P).
    { lia. }
    { unfold INT_MAX. lia. }
    { split; cbn [h2 heap_size cells]; [|lia].
      unfold a1. rewrite exchange_length. lia. }
    { cbn [h2 heap_size]. lia. }
    rewrite Hrun.
    destruct P as [Pl Ps Pc Pp Pf _ Pb Ph].
    cbn [h2 cells heap_size length log] in *.
    assert (Hsub : forall c, 2 <= c -> max_heap_sub a1 (hs - 1) c).
    { intros c Hc.
      apply (max_heap_sub_transfer a a1 (hs - 1) 1 c); try lia.
      - apply in_subtree_root. lia.
      - apply (max_heap_sub_shrink a hs); [lia | assumption].
      - intros k Hk Hle. apply in_subtree_le in Hk; [|lia].
        apply Ha1o; lia. }
    assert (Hlow : forall k, 1 <= k <= hs - 1 -> sel (cells h3) k <= sel a 1).
    { intros k Hk. apply Pb; [|apply in_subtree_root; lia | lia].
      intros x Hin Hx. apply in_subtree_le in Hin; [|lia].
      destruct (Z.eq_dec x 1) as [->|Hx1].
      - rewrite Ha11. apply Hmax. lia.
      - rewrite Ha1o by lia. apply Hmax. lia. }
    assert (Hup : forall k, hs <= k -> sel (cells h3) k = sel a1 k).
    { intros k Hk. apply Pf. intros [_ Hle]. lia. }
    destruct (IH h3) as (h' & Hrun' & Hs' & [Ql Qc Qp Qf] & Hfinal).
    { constructor; rewrite ?Ps.
      - lia.
      - split; [rewrite Pc; unfold a1; rewrite exchange_length|]; assumption.
      - apply Ph; apply Hsub; lia.
      - intros k Hk. rewrite !Hup by lia.
        destruct (Z.eq_dec k hs) as [->|Hkh].
        + rewrite Ha1h, Ha1o by lia. apply Hsplit; lia.
        + rewrite !Ha1o by lia. apply Hsorted. lia.
      - intros j k Hj Hk. rewrite (Hup k) by lia.
        destruct (Z.eq_dec k hs) as [->|Hkh].
        + rewrite Ha1h. apply Hlow. lia.
        + rewrite Ha1o by lia.
          transitivity (sel a 1); [apply Hlow; lia | apply Hsplit; lia]. }
    { lia. }
    exists h'. split; [exact Hrun'|]. split; [exact Hs'|].
    split; [|exact Hfinal].
    rewrite Ps in Qf.
    constructor; change (cells h) with a; change (heap_size h) with hs.
    + congruence.
    + rewrite Qc, Pc. apply exchange_length; assumption.
    + apply perm_trans with a1; [apply exchange_perm; assumption|].
      apply perm_trans with (cells h3); assumption.
    + intros k Hk. rewrite Qf by lia.
      rewrite Pf.
      * apply Ha1o; lia.
      * intros [Hin Hle]. apply in_subtree_le in Hin; lia.
  - exists h. split; [reflexivity|]. split; [lia|]. split.
    + constructor; auto.
    + intros k Hk. apply Hsorted. lia.
Qed.

Lemma sel_nonpos (a : list Z) (k : Z) : k <= 0 -> sel a k = sel a 0.
Proof. intros Hk. unfold sel. now replace (Z.to_nat k) with (Z.to_nat 0) by lia. Qed.

Lemma heapsort_spec (fuel : nat) (n : Z) (h : heap) :
  0 <= n -> room n (cells h) -> 2 * n < Z.of_nat fuel ->
  exists h', heapsort fuel n h = Ok tt h' /\ sort_post n h h'.
Proof.
  intros Hn Hroom Hfuel.
  destruct (build_spec fuel n h Hn Hroom Hfuel) as (h1 & Hb & B).
  destruct B as [Bs Bl Bc B0 Bp Bf Bh].
  destruct (heapsort_loop_spec n fuel h1) as (h' & Hl & Hs & L & Hsorted).
  { destruct Hroom as [Hlen Hfit]. constructor; rewrite ?Bs.
    - lia.
    - split; [rewrite Bc|]; assumption.
    - now apply max_heap_root.
    - intros k Hk. lia.
    - intros j k Hj Hk. lia. }
  { rewrite Bs. lia. }
  exists h'. unfold heapsort, bind. rewrite Hb. split; [exact Hl|].
  destruct L as [Ll Lc Lp Lf]. rewrite Bs in Lf.
  constructor; try assumption; try congruence.
  - rewrite Lf by lia. assumption.
  - rewrite <- (live_upd_sentinel n (cells h) (-1)).
    apply live_perm.
    + assumption.
    + rewrite upd_length. congruence.
    + apply perm_trans with (cells h1); assumption.
    + intros k Hk. rewrite Lf by assumption.
      destruct (Z.lt_ge_cases n k) as [G|G].
      * rewrite Bf by assumption. symmetry. apply sel_upd_sentinel. lia.
      * rewrite (sel_nonpos (cells h1)), (sel_nonpos (upd _ _ _)) by lia.
        rewrite B0. unfold sel. symmetry. apply nth_upd_same.
        destruct Hroom. simpl. lia.
  - intros k Hk. rewrite Lf by lia. now apply Bf.
Qed.

(** ** [build] on an array that is already a heap *)




(** ** Soundness of the subtree checker *)

Lemma iter_parent_depth (d : nat) :
  forall k, 1 <= Nat.iter d parent k -> Z.of_nat d < k.
Proof.
  induction d as [|d IH]; intros k H.
  - simpl in H. lia.
  - rewrite Nat.iter_succ_r in H. specialize (IH _ H).
    pose proof (parent_child k). lia.
Qed.

Lemma in_subtreeb_complete (d : nat) :
  forall f i k, 1 <= i -> Nat.iter d parent k = i -> (d <= f)%nat ->
                in_subtreeb f i k = true.
Proof.
  induction d as [|d IH]; intros f i k Hi Hd Hf.
  - simpl in Hd. subst. destruct f; simpl; now rewrite Z.eqb_refl.
  - destruct f as [|f]; [lia|]. simpl in_subtreeb.
    destruct (Z.eqb_spec k i) as [E|E]; [reflexivity|]. simpl.
    assert (Hin : in_subtree i k) by (now exists (S d)).
    apply in_subtree_le in Hin; [|assumption].
    rewrite Nat.iter_succ_r in Hd.
    rewrite (IH f i (parent k)) by (auto; lia).
    destruct (Z.ltb_spec i k); [reflexivity|lia].
Qed.

Lemma max_heap_subb_sound (a : list Z) (hs i : Z) :
  1 <= i -> max_heap_subb a hs i = true -> max_heap_sub a hs i.
Proof.
  intros Hi H k [d Hd] Hne Hk. unfold max_heap_subb in H.
  rewrite forallb_forall in H.
  assert (Hdk : Z.of_nat d < k) by (apply iter_parent_depth; lia).
  specialize (H k). rewrite in_map_iff in H.
  assert (Hin : exists x, Z.of_nat x = k /\ In x (seq 1 (Z.to_nat hs))).
  { exists (Z.to_nat k). split; [lia|]. apply in_seq. lia. }
  specialize (H Hin).
  rewrite (in_subtreeb_complete d) in H by (auto; lia).
  destruct (Z.eqb_spec k i); [contradiction|]. simpl in H.
  now apply Z.leb_le.
Qed.


(** ** Child indices beyond the [int] range *)

Lemma rd_negative (i : Z) (h : heap) : i < 0 -> rd i h = Fault.
Proof. intros H. unfold rd. destruct (Z.leb_spec 0 i); [lia|reflexivity]. Qed.

(** From [2^30] on, [heapfy] at an index reads [a[i << 1]] at a negative
    index. *)
Lemma heapfy_overflow_fault (fuel : nat) (i : Z) (h : heap) :
  1073741824 <= i <= INT_MAX -> 0 <= heap_size h ->
  heapfy (S fuel) i h = Fault.
Proof.
  intros Hi Hhs.
  destruct (left_cases i ltac:(unfold INT_MAX in *; lia)) as [[E H]|[E H]];
    [unfold INT_MAX in *; lia|].
  cbn [heapfy]. unfold bind at 1. unfold pick_largest. cbv zeta.
  unfold bind at 1. unfold get_heap_size at 1. rewrite E.
  destruct (Z.leb_spec (2 * i - 4294967296) (heap_size h)) as [_|];
    [|unfold INT_MAX in *; lia].
  unfold bind at 1. unfold bind at 1.
  destruct (rd i h) as [v h1| |] eqn:R;
    [| reflexivity | now apply rd_no_timeout in R].
  unfold bind at 1.
  rewrite rd_negative by (unfold INT_MAX in *; lia). reflexivity.
Qed.

Lemma heapfy_overflow_never_ok (fuel : nat) (i : Z) (h h' : heap) :
  1073741824 <= i <= INT_MAX -> 0 <= heap_size h ->
  heapfy fuel i h <> Ok tt h'.
Proof.
  intros Hi Hhs. destruct fuel as [|fuel]; [discriminate|].
  now rewrite heapfy_overflow_fault.
Qed.

(** A node whose only live child has an index of [2^30] or more, and
    holds a larger value, sends [heapfy] to that child. *)
Lemma heapfy_into_overflow (k : Z) (h : heap) :
  1073741824 <= 2 * k -> 2 * k + 1 <= INT_MAX ->
  heap_size h = 2 * k ->
  heap_size h < Z.of_nat (List.length (cells h)) ->
  sel (cells h) k < sel (cells h) (2 * k) ->
  (forall fuel h', heapfy fuel k h <> Ok tt h') /\
  (forall fuel, heapfy (S (S fuel)) k h = Fault).
Proof.
  intros Hk Hmax Hs Hlen Hlt.
  destruct (pick_largest_spec k h ltac:(lia) Hmax Hlen)
    as (j & h1 & Hpick & Hc & Hl & Hs1 & _ & Hj & _ & Hjl & _).
  assert (j = 2 * k) as ->.
  { specialize (Hjl ltac:(lia)).
    destruct Hj as [->|([-> | ->] & Hle & _)]; lia. }
  assert (Hstep : forall fuel,
             heapfy (S fuel) k h
             = heapfy fuel (2 * k)
                 (mkHeap (exchange (cells h1) k (2 * k)) (length h1)
                         (heap_size h1)
                         (Wr (2 * k) :: Wr k :: Rd (2 * k) :: Rd k :: log h1))).
  { intros fuel. cbn [heapfy]. unfold bind at 1. rewrite Hpick.
    destruct (Z.eqb_spec (2 * k) k); [lia|].
    now rewrite exchange_ok by (rewrite Hc; lia). }
  split.
  - intros [|fuel] h'; [discriminate|]. rewrite Hstep.
    apply heapfy_overflow_never_ok; cbn [heap_size]; unfold INT_MAX in *; lia.
  - intros fuel. rewrite Hstep.
    apply heapfy_overflow_fault; cbn [heap_size]; unfold INT_MAX in *; lia.
Qed.

Lemma bind_not_ok {A B} (m : M A) (k : A -> M B) (h : heap) :
  (forall x h1, m h <> Ok x h1) -> forall y h2, bind m k h <> Ok y h2.
Proof.
  intros H y h2. unfold bind. destruct (m h) as [x h1| |];
    [now specialize (H x h1) | discriminate | discriminate].
Qed.

Lemma bind_fault {A B} (m : M A) (k : A -> M B) (h : heap) :
  m h = Fault -> bind m k h = Fault.
Proof. intros H. unfold bind. now rewrite H. Qed.

Lemma huge_array_length :
  Z.of_nat (List.length huge_array) = far_index + 1.
Proof.
  unfold huge_array. rewrite length_app, repeat_length.
  cbn [List.length]. unfold far_index. lia.
Qed.

Lemma sel_huge_array_low (k : Z) :
  0 <= k < far_index -> sel huge_array k = 0.
Proof.
  intros H. unfold sel, huge_array.
  rewrite app_nth1 by (rewrite repeat_length; lia). apply nth_repeat.
Qed.

Lemma sel_huge_array_top : sel huge_array far_index = 1.
Proof.
  unfold sel, huge_array. rewrite app_nth2 by (rewrite repeat_length; lia).
  rewrite repeat_length, Nat.sub_diag. reflexivity.
Qed.

(** On [huge_input] with [n = 2^30], [build] never returns normally. *)
Lemma build_huge :
  (forall fuel h', build fuel far_index huge_input <> Ok tt h') /\
  build 3 far_index huge_input = Fault.
Proof.
  pose proof huge_array_length as HL.
  assert (E : forall fuel,
             build fuel far_index huge_input
             = build_loop fuel 536870912
                 (mkHeap (upd huge_array 0 (-1)) far_index far_index [Wr 0])).
  { intros fuel. unfold build, bind, set_length, set_heap_size.
    rewrite wr_ok by (unfold huge_input, fresh; cbn [cells];
                      unfold far_index in *; lia).
    reflexivity. }
  set (h0 := mkHeap (upd huge_array 0 (-1)) far_index far_index [Wr 0]) in E.
  destruct (heapfy_into_overflow 536870912 h0) as [Hnever Hfault].
  - lia.
  - unfold INT_MAX. lia.
  - reflexivity.
  - cbn [h0 heap_size cells]. rewrite upd_length. lia.
  - cbn [h0 cells]. rewrite !sel_upd_sentinel by lia.
    change (2 * 536870912) with far_index.
    rewrite sel_huge_array_top, sel_huge_array_low by (unfold far_index; lia).
    lia.
  - split.
    + intros fuel h'. rewrite E. destruct fuel as [|fuel]; [discriminate|].
      cbn [build_loop]. change (1 <=? 536870912) with true. cbv iota.
      apply bind_not_ok. intros [] h1. apply Hnever.
    + rewrite E. cbn [build_loop]. change (1 <=? 536870912) with true.
      cbv iota. apply bind_fault. apply Hfault.
Qed.

Lemma heapsort_huge :
  (forall fuel h', heapsort fuel far_index huge_input <> Ok tt h') /\
  heapsort 3 far_index huge_input = Fault.
Proof.
  destruct build_huge as [Hnever Hfault]. split.
  - intros fuel h'. unfold heapsort. apply bind_not_ok.
    intros [] h1. apply Hnever.
  - unfold heapsort. now apply bind_fault.
Qed.

(** * The properties of the specification *)

Ltac solve_room := split; cbn; unfold INT_MAX; lia.

(** C1 (as stated, refuted). Sortedness does not hold for every
    nonnegative [n]: with [n = 2^30] and an array that has the slots
    [0..n], [heapsort] does not return.  Its first [heapfy] call moves
    down to node [2^30], where [i << 1] is [INT_MIN], the test
    [lft <= heap_size] succeeds and [a[INT_MIN]] is read. *)
Lemma heapsort_sorted_overflow :
  0 <= far_index /\
  far_index < Z.of_nat (List.length (cells huge_input)) /\
  (forall fuel h', heapsort fuel far_index huge_input <> Ok tt h') /\
  heapsort 3 far_index huge_input = Fault.
Proof.
  pose proof huge_array_length as HL. destruct heapsort_huge as [H1 H2].
  split; [unfold far_index; lia|].
  split; [unfold huge_input, fresh; cbn [cells]; lia|].
  split; assumption.
Qed.

(** C1 (amended). For every nonnegative [n] whose child indices are
    representable as [int] ([2n+1 <= INT_MAX]) and every array with
    slots [0..n], [heapsort] returns with the capacity of the array
    unchanged and the live region in non-decreasing order: slot [i]
    holds at most what slot [i+1] holds, for all [1 <= i < n]. *)
Theorem heapsort_sorted (fuel : nat) (n : Z) (h : heap) :
  0 <= n -> room n (cells h) -> 2 * n < Z.of_nat fuel ->
  exists h', heapsort fuel n h = Ok tt h' /\
             List.length (cells h') = List.length (cells h) /\
             forall i, 1 <= i < n ->
                       sel (cells h') i <= sel (cells h') (i + 1).
Proof.
  intros Hn Hroom Hfuel.
  destruct (heapsort_spec fuel n h Hn Hroom Hfuel) as (h' & Hrun & P).
  exists h'. split; [exact Hrun|].
  split; [apply (sorted_capacity _ _ _ P) | apply (sorted_order _ _ _ P)].
Qed.

Lemma heapsort_sorted_witness :
  0 <= 5 /\ room 5 (cells demo_input) /\ 2 * 5 < Z.of_nat 11 /\
  exists h', heapsort 11 5 demo_input = Ok tt h' /\
             List.length (cells h') = List.length (cells demo_input) /\
             forall i, 1 <= i < 5 ->
                       sel (cells h') i <= sel (cells h') (i + 1).
Proof.
  assert (H1 : 0 <= 5) by lia.
  assert (H2 : room 5 (cells demo_input)) by solve_room.
  assert (H3 : 2 * 5 < Z.of_nat 11) by (cbn; lia).
  exact (conj H1 (conj H2 (conj H3
           (heapsort_sorted 11 5 demo_input H1 H2 H3)))).
Defined.

(** C2 (as stated, refuted). The permutation property does not hold
    for every nonnegative [n]: with [n = 2^30] and an array that has the
    slots [0..n], [heapsort] reads [a[INT_MIN]] and leaves no final
    array to compare. *)
Lemma heapsort_permutes_overflow :
  0 <= far_index /\
  far_index < Z.of_nat (List.length (cells huge_input)) /\
  (forall fuel h', heapsort fuel far_index huge_input <> Ok tt h') /\
  heapsort 3 far_index huge_input = Fault.
Proof.
  pose proof huge_array_length as HL. destruct heapsort_huge as [H1 H2].
  split; [unfold far_index; lia|].
  split; [unfold huge_input, fresh; cbn [cells]; lia|].
  split; assumption.
Qed.

(** C2 (amended). For every nonnegative [n] with [2n+1 <= INT_MAX] and
    every array with slots [0..n], [heapsort] returns and has only
    permuted the live region: the values in slots [1..n] after the call
    are a permutation of those before it. *)
Theorem heapsort_permutes (fuel : nat) (n : Z) (h : heap) :
  0 <= n -> room n (cells h) -> 2 * n < Z.of_nat fuel ->
  exists h', heapsort fuel n h = Ok tt h' /\
             Permutation (live n (cells h)) (live n (cells h')).
Proof.
  intros Hn Hroom Hfuel.
  destruct (heapsort_spec fuel n h Hn Hroom Hfuel) as (h' & Hrun & P).
  exists h'. split; [exact Hrun|]. apply (sorted_perm _ _ _ P).
Qed.

Lemma heapsort_permutes_witness :
  0 <= 5 /\ room 5 (cells demo_input) /\ 2 * 5 < Z.of_nat 11 /\
  exists h', heapsort 11 5 demo_input = Ok tt h' /\
             Permutation (live 5 (cells demo_input)) (live 5 (cells h')).
Proof.
  assert (H1 : 0 <= 5) by lia.
  assert (H2 : room 5 (cells demo_input)) by solve_room.
  assert (H3 : 2 * 5 < Z.of_nat 11) by (cbn; lia).
  exact (conj H1 (conj H2 (conj H3
           (heapsort_permutes 11 5 demo_input H1 H2 H3)))).
Defined.

(** C3 (as stated, refuted). [build] does not establish the heap for
    every nonnegative [n]: with [n = 2^30] and an array that has the
    slots [0..n], its first [heapfy] call, at node [2^29], exchanges
    with node [2^30] and then reads [a[INT_MIN]]; [build] does not
    return. *)
Lemma build_makes_heap_overflow :
  0 <= far_index /\
  far_index < Z.of_nat (List.length (cells huge_input)) /\
  (forall fuel h', build fuel far_index huge_input <> Ok tt h') /\
  build 3 far_index huge_input = Fault.
Proof.
  pose proof huge_array_length as HL. destruct build_huge as [H1 H2].
  split; [unfold far_index; lia|].
  split; [unfold huge_input, fresh; cbn [cells]; lia|].
  split; assumption.
Qed.

(** C3 (amended). For every nonnegative [n] with [2n+1 <= INT_MAX] and
    every array with slots [0..n], [build] returns with the capacity of
    the array unchanged and the max-heap property holding over the whole
    live region: for every [i] in [2..n], slot [i/2] holds at least what
    slot [i] holds. *)
Theorem build_makes_heap (fuel : nat) (n : Z) (h : heap) :
  0 <= n -> room n (cells h) -> 2 * n < Z.of_nat fuel ->
  exists h', build fuel n h = Ok tt h' /\
             List.length (cells h') = List.length (cells h) /\
             forall i, 2 <= i <= n ->
                       sel (cells h') (i / 2) >= sel (cells h') i.
Proof.
  intros Hn Hroom Hfuel.
  destruct (build_spec fuel n h Hn Hroom Hfuel) as (h' & Hrun & P).
  exists h'. split; [exact Hrun|].
  split; [apply (built_capacity _ _ _ P) | apply (built_heap _ _ _ P)].
Qed.

Lemma build_makes_heap_witness :
  0 <= 5 /\ room 5 (cells demo_input) /\ 2 * 5 < Z.of_nat 11 /\
  exists h', build 11 5 demo_input = Ok tt h' /\
             List.length (cells h') = List.length (cells demo_input) /\
             forall i, 2 <= i <= 5 ->
                       sel (cells h') (i / 2) >= sel (cells h') i.
Proof.
  assert (H1 : 0 <= 5) by lia.
  assert (H2 : room 5 (cells demo_input)) by solve_room.
  assert (H3 : 2 * 5 < Z.of_nat 11) by (cbn; lia).
  exact (conj H1 (conj H2 (conj H3
           (build_makes_heap 11 5 demo_input H1 H2 H3)))).
Defined.




(** C5 (as stated, refuted). [heapfy] is not correct at every live
    index: at the live leaf [i = heap_size = 2^30] of an array with the
    slots [0..2^30] both child subtrees are empty, hence valid, but
    [i << 1] is [INT_MIN], the test [lft <= heap_size] succeeds and
    [a[INT_MIN]] is read; the call does not return. *)
Lemma heapfy_restores_heap_overflow :
  1 <= far_index <= heap_size huge_leaf /\
  heap_size huge_leaf < Z.of_nat (List.length (cells huge_leaf)) /\
  max_heap_sub (cells huge_leaf) (heap_size huge_leaf) (2 * far_index) /\
  max_heap_sub (cells huge_leaf) (heap_size huge_leaf) (2 * far_index + 1) /\
  (forall fuel h', heapfy fuel far_index huge_leaf <> Ok tt h') /\
  heapfy 1 far_index huge_leaf = Fault.
Proof.
  pose proof huge_array_length as HL.
  unfold huge_leaf; cbn [heap_size cells].
  split; [unfold far_index; lia|]. split; [lia|].
  split; [apply leaf_heap; unfold far_index; lia|].
  split; [apply leaf_heap; unfold far_index; lia|].
  split.
  - intros fuel h'. apply heapfy_overflow_never_ok; cbn [heap_size];
      unfold far_index, INT_MAX; lia.
  - apply heapfy_overflow_fault; cbn [heap_size];
      unfold far_index, INT_MAX; lia.
Qed.

(** C5 (amended). [heapfy] is locally correct when the child indices of
    the live region are representable as [int]
    ([2*heap_size+1 <= INT_MAX]): for a live index [i] whose two child
    subtrees (rooted at [2i] and [2i+1]) satisfy the max-heap property
    inside the live region, the call returns with capacity and
    [heap_size] unchanged, and the whole subtree rooted at [i] then
    satisfies it. *)
Theorem heapfy_restores_heap (fuel : nat) (i : Z) (h : heap) :
  1 <= i <= heap_size h -> room (heap_size h) (cells h) ->
  heap_size h < Z.of_nat fuel ->
  max_heap_sub (cells h) (heap_size h) (2 * i) ->
  max_heap_sub (cells h) (heap_size h) (2 * i + 1) ->
  exists h', heapfy fuel i h = Ok tt h' /\
             List.length (cells h') = List.length (cells h) /\
             heap_size h' = heap_size h /\
             max_heap_sub (cells h') (heap_size h') i.
Proof.
  intros Hi Hroom Hfuel Hl Hr.
  destruct (heapfy_spec fuel i h) as (h' & Hrun & P);
    [lia | destruct Hroom; unfold INT_MAX in *; lia | assumption | lia |].
  exists h'. split; [exact Hrun|].
  split; [apply (post_capacity _ _ _ P)|].
  split; [apply (post_heap_size _ _ _ P)|].
  rewrite (post_heap_size _ _ _ P). now apply (post_heap _ _ _ P).
Qed.

Lemma heapfy_restores_heap_witness :
  1 <= 1 <= heap_size demo_heap /\
  room (heap_size demo_heap) (cells demo_heap) /\
  max_heap_sub (cells demo_heap) (heap_size demo_heap) (2 * 1) /\
  max_heap_sub (cells demo_heap) (heap_size demo_heap) (2 * 1 + 1) /\
  exists h', heapfy 8 1 demo_heap = Ok tt h' /\
             List.length (cells h') = List.length (cells demo_heap) /\
             heap_size h' = heap_size demo_heap /\
             max_heap_sub (cells h') (heap_size h') 1.
Proof.
  assert (H1 : 1 <= 1 <= heap_size demo_heap) by (cbn; lia).
  assert (H2 : room (heap_size demo_heap) (cells demo_heap)) by solve_room.
  assert (H3 : heap_size demo_heap < Z.of_nat 8) by (cbn; lia).
  assert (H4 : max_heap_sub (cells demo_heap) (heap_size demo_heap) (2 * 1)).
  { apply max_heap_subb_sound; [lia | vm_compute; reflexivity]. }
  assert (H5 : max_heap_sub (cells demo_heap) (heap_size demo_heap)
                            (2 * 1 + 1)).
  { apply max_heap_subb_sound; [lia | vm_compute; reflexivity]. }
  exact (conj H1 (conj H2 (conj H4 (conj H5
           (heapfy_restores_heap 8 1 demo_heap H1 H2 H3 H4 H5))))).
Defined.

(** C6 (as stated, refuted). [heapfy] does not stay inside
    [1..heap_size] at every live index: at [i = heap_size = 2^30] the
    left child index [i << 1] is [INT_MIN], the test
    [lft <= heap_size] succeeds, and the cell [a[INT_MIN]], outside
    [1..heap_size], is read. *)
Lemma heapfy_local_overflow :
  1 <= far_index <= heap_size huge_leaf /\
  heap_size huge_leaf < Z.of_nat (List.length (cells huge_leaf)) /\
  left far_index = INT_MIN /\ left far_index <= heap_size huge_leaf /\
  (forall fuel h', heapfy fuel far_index huge_leaf <> Ok tt h') /\
  heapfy 1 far_index huge_leaf = Fault.
Proof.
  pose proof huge_array_length as HL.
  unfold huge_leaf; cbn [heap_size cells].
  split; [unfold far_index; lia|]. split; [lia|].
  split; [reflexivity|]. split; [vm_compute; discriminate|].
  split.
  - intros fuel h'. apply heapfy_overflow_never_ok; cbn [heap_size];
      unfold far_index, INT_MAX; lia.
  - apply heapfy_overflow_fault; cbn [heap_size];
      unfold far_index, INT_MAX; lia.
Qed.

(** C6 (amended). When the child indices of the live region are
    representable as [int] ([2*heap_size+1 <= INT_MAX]), [heapfy] is
    local: called at a live index [i], it leaves every array slot that
    is not a live node of the subtree rooted at [i] exactly as it was,
    and every cell it reads or writes is a node of that subtree inside
    [1..heap_size]. *)
Theorem heapfy_local (fuel : nat) (i : Z) (h : heap) :
  1 <= i <= heap_size h -> room (heap_size h) (cells h) ->
  heap_size h < Z.of_nat fuel ->
  exists h', heapfy fuel i h = Ok tt h' /\
    (forall k : nat,
        ~ (in_subtree i (Z.of_nat k) /\ Z.of_nat k <= heap_size h) ->
        nth_error (cells h') k = nth_error (cells h) k) /\
    exists new, log h' = new ++ log h /\
                Forall (fun e => in_subtree i (idx e) /\
                                 1 <= idx e <= heap_size h) new.
Proof.
  intros Hi Hroom Hfuel.
  destruct (heapfy_spec fuel i h) as (h' & Hrun & P);
    [lia | destruct Hroom; unfold INT_MAX in *; lia | assumption | lia |].
  exists h'. split; [exact Hrun|]. destruct P as [_ _ Pc _ Pf Plog _ _].
  split.
  - intros k Hk. apply nth_error_sel; [congruence|]. now apply Pf.
  - apply (log_ext_app (fun k => in_subtree i k /\ 1 <= k <= heap_size h)).
    eapply log_ext_weaken; [|exact Plog]. cbv beta.
    intros k [Hin Hle]. pose proof (in_subtree_le i k ltac:(lia) Hin).
    split; [assumption|lia].
Qed.

Lemma heapfy_local_witness :
  1 <= 1 <= heap_size demo_heap /\
  room (heap_size demo_heap) (cells demo_heap) /\
  heap_size demo_heap < Z.of_nat 8 /\
  exists h', heapfy 8 1 demo_heap = Ok tt h' /\
    (forall k : nat,
        ~ (in_subtree 1 (Z.of_nat k) /\ Z.of_nat k <= heap_size demo_heap) ->
        nth_error (cells h') k = nth_error (cells demo_heap) k) /\
    exists new, log h' = new ++ log demo_heap /\
                Forall (fun e => in_subtree 1 (idx e) /\
                                 1 <= idx e <= heap_size demo_heap) new.
Proof.
  assert (H1 : 1 <= 1 <= heap_size demo_heap) by (cbn; lia).
  assert (H2 : room (heap_size demo_heap) (cells demo_heap)) by solve_room.
  assert (H3 : heap_size demo_heap < Z.of_nat 8) by (cbn; lia).
  exact (conj H1 (conj H2 (conj H3 (heapfy_local 8 1 demo_heap H1 H2 H3)))).
Defined.

(** C7. Edge case [n = 0]: on an array that has its slot 0,
    [heapsort] returns without a fault and without touching any
    element: its only array access is the write of the sentinel [-1]
    into slot 0 that [build] always makes, both globals become 0, and
    every slot from index 1 on is unchanged. *)
Theorem heapsort_zero (fuel : nat) (h : heap) :
  (0 < List.length (cells h))%nat -> (0 < fuel)%nat ->
  heapsort fuel 0 h
  = Ok tt (mkHeap (upd (cells h) 0 (-1)) 0 0 (Wr 0 :: log h)) /\
  forall k : nat, (1 <= k)%nat ->
                  nth_error (upd (cells h) 0 (-1)) k = nth_error (cells h) k.
Proof.
  intros Hlen Hfuel. split.
  - destruct fuel as [|fuel]; [lia|].
    unfold heapsort, build, bind, set_length, set_heap_size.
    rewrite wr_ok by (cbn [cells]; lia). reflexivity.
  - intros k Hk. destruct (cells h), k; try lia; reflexivity.
Qed.

Lemma heapsort_zero_witness :
  (0 < List.length (cells unsentineled))%nat /\ (0 < 1)%nat /\
  heapsort 1 0 unsentineled
  = Ok tt (mkHeap (upd (cells unsentineled) 0 (-1)) 0 0
                  (Wr 0 :: log unsentineled)) /\
  forall k : nat, (1 <= k)%nat ->
                  nth_error (upd (cells unsentineled) 0 (-1)) k
                  = nth_error (cells unsentineled) k.
Proof.
  assert (H1 : (0 < List.length (cells unsentineled))%nat) by (cbn; lia).
  assert (H2 : (0 < 1)%nat) by lia.
  exact (conj H1 (conj H2 (heapsort_zero 1 unsentineled H1 H2))).
Defined.

(** C8 (as stated, refuted). [heapfy] is not a total function under
    its documented precondition: at the live index
    [i = heap_size = 2^30] of an array with the slots [0..2^30] the call
    stops in an out-of-bounds read of [a[INT_MIN]] instead of
    returning. *)
Lemma heapfy_terminates_overflow :
  1 <= far_index <= heap_size huge_leaf /\
  heap_size huge_leaf < Z.of_nat (List.length (cells huge_leaf)) /\
  (forall fuel h', heapfy fuel far_index huge_leaf <> Ok tt h') /\
  heapfy 1 far_index huge_leaf = Fault.
Proof.
  pose proof huge_array_length as HL.
  unfold huge_leaf; cbn [heap_size cells].
  split; [unfold far_index; lia|]. split; [lia|].
  split.
  - intros fuel h'. apply heapfy_overflow_never_ok; cbn [heap_size];
      unfold far_index, INT_MAX; lia.
  - apply heapfy_overflow_fault; cbn [heap_size];
      unfold far_index, INT_MAX; lia.
Qed.

(** C8 (amended). [heapfy] never loops, for every array, every
    [heap_size] and every index [i >= 1]: with more fuel than the array
    has cells it never runs out of fuel; a recursive call is made only
    at [2i] or [2i+1], an index strictly above [i] and at most
    [heap_size]; and when [1 <= i <= heap_size], the cells
    [0..heap_size] exist and [2*heap_size+1 <= INT_MAX], the call
    returns normally. *)
Theorem heapfy_terminates (fuel : nat) (i : Z) (h : heap) :
  1 <= i <= INT_MAX -> (List.length (cells h) < fuel)%nat ->
  heapfy fuel i h <> Timeout /\
  (forall j h1, pick_largest i h = Ok j h1 -> j <> i ->
                i < j <= heap_size h /\ (j = 2 * i \/ j = 2 * i + 1)) /\
  (i <= heap_size h -> room (heap_size h) (cells h) ->
   exists h', heapfy fuel i h = Ok tt h').
Proof.
  intros Hi Hfuel. split; [|split].
  - apply heapfy_no_timeout; [assumption | lia].
  - intros j h1 Hpick Hne. pose proof (pick_largest_any i h Hi) as P.
    rewrite Hpick in P. destruct P as (_ & _ & _ & [?|(Hc & Hle & _)]);
      [contradiction|]. split; [lia | assumption].
  - intros Hle [Hlen Hfit].
    destruct (heapfy_spec fuel i h) as (h' & Hrun & _);
      [lia | unfold INT_MAX in *; lia | split; assumption | lia |].
    now exists h'.
Qed.

Lemma heapfy_terminates_witness :
  1 <= 1 <= INT_MAX /\ (List.length (cells demo_heap) < 9)%nat /\
  heapfy 9 1 demo_heap <> Timeout /\
  (forall j h1, pick_largest 1 demo_heap = Ok j h1 -> j <> 1 ->
                1 < j <= heap_size demo_heap /\
                (j = 2 * 1 \/ j = 2 * 1 + 1)) /\
  (1 <= heap_size demo_heap ->
   room (heap_size demo_heap) (cells demo_heap) ->
   exists h', heapfy 9 1 demo_heap = Ok tt h').
Proof.
  assert (H1 : 1 <= 1 <= INT_MAX) by (unfold INT_MAX; lia).
  assert (H2 : (List.length (cells demo_heap) < 9)%nat) by (cbn; lia).
  exact (conj H1 (conj H2 (heapfy_terminates 9 1 demo_heap H1 H2))).
Defined.

(** C9 (as stated, refuted). An index above [heap_size] is not always a
    safe no-op: at [i = 2^30] the [int] value of [i << 1] is [INT_MIN],
    the bound test [lft <= heap_size] succeeds, and [a[i]] is read
    outside the array. *)
Lemma heapfy_far_index_faults :
  1 <= far_index /\ heap_size small_heap < far_index /\
  left far_index = INT_MIN /\
  heapfy 1 far_index small_heap = Fault /\
  heapfy 10 far_index small_heap = Fault.
Proof.
  repeat split; try reflexivity; unfold far_index; cbn; lia.
Qed.

(** C9 (amended). For every array and every index [i >= 1] above
    [heap_size] whose child indices are representable as [int]
    ([2i+1 <= INT_MAX]), [heapfy] is a no-op: both bound tests fail, no
    array element is read or written, and the call returns at once with
    the state unchanged. *)
Theorem heapfy_above_live_noop (fuel : nat) (i : Z) (h : heap) :
  1 <= i -> heap_size h < i -> 2 * i + 1 <= INT_MAX ->
  heapfy (S fuel) i h = Ok tt h.
Proof.
  intros Hi Hhs Hmax. cbn [heapfy]. unfold bind at 1, pick_largest.
  rewrite left_small, right_small by lia.
  unfold bind, get_heap_size, ret.
  destruct (Z.leb_spec (2 * i) (heap_size h)); [lia|].
  destruct (Z.leb_spec (2 * i + 1) (heap_size h)); [lia|].
  now rewrite Z.eqb_refl.
Qed.

Lemma heapfy_above_live_noop_witness :
  1 <= 3 /\ heap_size small_heap < 3 /\ 2 * 3 + 1 <= INT_MAX /\
  heapfy 1 3 small_heap = Ok tt small_heap.
Proof.
  assert (H1 : 1 <= 3) by lia.
  assert (H2 : heap_size small_heap < 3) by (cbn; lia).
  assert (H3 : 2 * 3 + 1 <= INT_MAX) by (unfold INT_MAX; lia).
  exact (conj H1 (conj H2 (conj H3
           (heapfy_above_live_noop 0 3 small_heap H1 H2 H3)))).
Defined.

(** C10 (as stated, refuted). Not every call of [heapsort] ends with
    [heap_size = 0]: with a negative [n] the call returns with
    [heap_size = n]; and with [n = 2^30] on an array with the slots
    [0..n] neither [build] nor [heapsort] returns at all. *)
Lemma build_sets_globals_not_every_call :
  (exists h', heapsort 1 (-2) small_heap = Ok tt h' /\
              heap_size h' = -2 /\ heap_size h' <> 0) /\
  (forall fuel h', build fuel far_index huge_input <> Ok tt h') /\
  (forall fuel h', heapsort fuel far_index huge_input <> Ok tt h').
Proof.
  split; [|split].
  - eexists. split; [reflexivity|]. split; [reflexivity|discriminate].
  - apply build_huge.
  - apply heapsort_huge.
Qed.

(** C10 (amended). Every call of [build], and so every call of
    [heapsort], on an array that has a slot 0 begins by assigning [n]
    to both globals [length] and [heap_size], whatever they held, and
    by writing [-1] into slot 0, whatever [n] is.  For a nonnegative
    [n] with [2n+1 <= INT_MAX] and an array with slots [0..n] both
    calls return: after [build], [heap_size] and [length] are [n] and
    slot 0 holds [-1]; after [heapsort], [heap_size] is 0, [length] is
    still [n] and slot 0 holds [-1]. *)
Theorem build_sets_globals (fuel : nat) (n : Z) (h : heap) :
  (0 < List.length (cells h))%nat ->
  build fuel n h
  = build_loop fuel (Z.shiftr n 1)
      (mkHeap (upd (cells h) 0 (-1)) n n (Wr 0 :: log h)) /\
  (0 <= n -> room n (cells h) -> 2 * n < Z.of_nat fuel ->
   (exists h1, build fuel n h = Ok tt h1 /\
               heap_size h1 = n /\ length h1 = n /\
               nth_error (cells h1) 0 = Some (-1)) /\
   (exists h2, heapsort fuel n h = Ok tt h2 /\
               heap_size h2 = 0 /\ length h2 = n /\
               nth_error (cells h2) 0 = Some (-1))).
Proof.
  intros Hslot. split.
  { unfold build, bind, set_length, set_heap_size.
    rewrite wr_ok by (cbn [cells]; lia). reflexivity. }
  intros Hn Hroom Hfuel.
  assert (Hs : forall a : list Z,
             List.length a = List.length (cells h) -> sel a 0 = -1 ->
             nth_error a 0 = Some (-1)).
  { intros a Hlen H0. rewrite <- H0. apply nth_error_nth'. lia. }
  split.
  - destruct (build_spec fuel n h Hn Hroom Hfuel) as (h1 & Hrun & P).
    exists h1. destruct P as [Bs Bl Bc B0 _ _ _]. auto.
  - destruct (heapsort_spec fuel n h Hn Hroom Hfuel) as (h2 & Hrun & P).
    exists h2. destruct P as [Ss Sl Sc S0 _ _ _]. auto.
Qed.

Lemma build_sets_globals_witness :
  (0 < List.length (cells demo_heap))%nat /\
  build 11 5 demo_heap
  = build_loop 11 (Z.shiftr 5 1)
      (mkHeap (upd (cells demo_heap) 0 (-1)) 5 5 (Wr 0 :: log demo_heap)) /\
  (0 <= 5 -> room 5 (cells demo_heap) -> 2 * 5 < Z.of_nat 11 ->
   (exists h1, build 11 5 demo_heap = Ok tt h1 /\
               heap_size h1 = 5 /\ length h1 = 5 /\
               nth_error (cells h1) 0 = Some (-1)) /\
   (exists h2, heapsort 11 5 demo_heap = Ok tt h2 /\
               heap_size h2 = 0 /\ length h2 = 5 /\
               nth_error (cells h2) 0 = Some (-1))).
Proof.
  assert (H1 : (0 < List.length (cells demo_heap))%nat) by (cbn; lia).
  exact (conj H1 (build_sets_globals 11 5 demo_heap H1)).
Defined.

(** * Further properties of the code *)

Example print_sorted :
  match (heapsort 20 5 ;;; print 20) demo_input with
  | Ok text _ => text = render [1; 2; 3; 4; 5]
  | _ => False
  end.
Proof. vm_compute. reflexivity. Qed.

(** ** Index arithmetic of [parent], [left] and [right] *)

(** X1. As long as the child indices are representable as [int],
    [left] and [right] are the two consecutive children [2i] and [2i+1]
    of [i], [parent] leads back from either of them to [i], and from
    [i >= 1] on the children lie strictly above [i]. *)
Theorem child_parent_roundtrip (i : Z) :
  0 <= i -> 2 * i + 1 <= INT_MAX ->
  left i = 2 * i /\ right i = left i + 1 /\
  parent (left i) = i /\ parent (right i) = i /\
  (1 <= i -> i < left i).
Proof.
  intros H0 Hmax. rewrite right_small, left_small by assumption.
  rewrite parent_even, parent_odd. repeat split; lia.
Qed.

Lemma child_parent_roundtrip_witness :
  0 <= 3 /\ 2 * 3 + 1 <= INT_MAX /\
  left 3 = 2 * 3 /\ right 3 = left 3 + 1 /\
  parent (left 3) = 3 /\ parent (right 3) = 3 /\
  (1 <= 3 -> 3 < left 3).
Proof.
  assert (H1 : 0 <= 3) by lia.
  assert (H2 : 2 * 3 + 1 <= INT_MAX) by (unfold INT_MAX; lia).
  exact (conj H1 (conj H2 (child_parent_roundtrip 3 H1 H2))).
Defined.

(** X2. From [i = 2^30] on, [i << 1] no longer fits an [int]: both
    [left i] and [right i] come out negative, so they pass every test
    [child <= heap_size] against a nonnegative [heap_size], and
    [parent] no longer leads back to [i]. *)
Theorem child_index_overflow (i : Z) :
  1073741824 <= i <= INT_MAX ->
  left i = 2 * i - 4294967296 /\ right i = left i + 1 /\
  left i < 0 /\ right i < 0 /\
  parent (left i) <> i /\ parent (right i) <> i.
Proof.
  intros Hi.
  destruct (left_cases i ltac:(unfold INT_MAX in *; lia)) as [[E H]|[E H]];
    [unfold INT_MAX in *; lia|].
  assert (Er : right i = left i + 1).
  { unfold right. fold (left i). rewrite E.
    apply wrap_small. unfold INT_MIN, INT_MAX in *. lia. }
  rewrite Er, E.
  replace (2 * i - 4294967296) with (2 * (i - 2147483648)) by lia.
  rewrite parent_even, parent_odd. unfold INT_MAX in *.
  repeat split; lia.
Qed.

Lemma child_index_overflow_witness :
  1073741824 <= far_index <= INT_MAX /\
  left far_index = 2 * far_index - 4294967296 /\
  right far_index = left far_index + 1 /\
  left far_index < 0 /\ right far_index < 0 /\
  parent (left far_index) <> far_index /\
  parent (right far_index) <> far_index.
Proof.
  assert (H1 : 1073741824 <= far_index <= INT_MAX)
    by (unfold far_index, INT_MAX; lia).
  exact (conj H1 (child_index_overflow far_index H1)).
Defined.

(** ** More on [heapfy] *)



(** The largest-of-three selection makes at most four accesses, all of
    them reads. *)
Lemma pick_largest_cost (i : Z) (h : heap) :
  1 <= i -> 2 * i + 1 <= INT_MAX ->
  heap_size h < Z.of_nat (List.length (cells h)) ->
  exists j h1 new,
    pick_largest i h = Ok j h1 /\ log h1 = new ++ log h /\
    (List.length new <= 4)%nat /\ forallb is_read new = true.
Proof.
  intros Hi Hmax Hlen. unfold pick_largest.
  rewrite left_small, right_small by lia.
  unfold bind, get_heap_size, ret.
  destruct (Z.leb_spec (2 * i) (heap_size h)) as [L|L].
  - do 2 step_rd.
    destruct (Z.ltb_spec (sel (cells h) i) (sel (cells h) (2 * i))) as [C|C];
      (destruct (Z.leb_spec (2 * i + 1) (heap_size h)) as [R|R];
       [ do 2 step_rd;
         match goal with
         | |- context [?x <? ?y] => destruct (Z.ltb_spec x y) as [D|D]
         end | ]);
      do 2 eexists;
      first [ eexists [_; _; _; _]; split; [reflexivity|];
              split; [reflexivity|]; split; [simpl; lia | reflexivity]
            | eexists [_; _]; split; [reflexivity|];
              split; [reflexivity|]; split; [simpl; lia | reflexivity] ].
  - destruct (Z.leb_spec (2 * i + 1) (heap_size h)) as [R|R]; [lia|].
    exists i, h, []. repeat split. simpl. lia.
Qed.

(** X4. For an index [i >= 1] with [2i+1 <= INT_MAX] and a
    [heap_size] below the capacity of the array: when [a[i]] is already
    no smaller than its live children, [heapfy] writes nothing; it
    reads at most four cells and returns with the array and both
    globals exactly as they were. *)
Theorem heapfy_dominant_noop (fuel : nat) (i : Z) (h : heap) :
  1 <= i -> 2 * i + 1 <= INT_MAX ->
  heap_size h < Z.of_nat (List.length (cells h)) ->
  (2 * i <= heap_size h -> sel (cells h) (2 * i) <= sel (cells h) i) ->
  (2 * i + 1 <= heap_size h -> sel (cells h) (2 * i + 1) <= sel (cells h) i) ->
  exists h' new,
    heapfy (S fuel) i h = Ok tt h' /\ same_memory h' h /\
    log h' = new ++ log h /\ (List.length new <= 4)%nat /\
    forallb is_read new = true.
Proof.
  intros Hi Hmax Hlen Hl Hr.
  destruct (pick_largest_spec i h Hi Hmax Hlen)
    as (j & h1 & Hpick & Hc & Hlg & Hs & _ & Hj & _).
  destruct (pick_largest_cost i h Hi Hmax Hlen)
    as (j' & h1' & new & Hpick' & Hlog & Hn & Hrd).
  rewrite Hpick in Hpick'. injection Hpick' as <- <-.
  cbn [heapfy]. unfold bind at 1. rewrite Hpick.
  assert (j = i) as ->.
  { destruct Hj as [?|([-> | ->] & Hle & Hlt)]; [assumption|lia|lia]. }
  rewrite Z.eqb_refl. exists h1, new. split; [reflexivity|].
  repeat split; assumption.
Qed.

Lemma heapfy_dominant_noop_witness :
  1 <= 2 /\ 2 * 2 + 1 <= INT_MAX /\
  heap_size demo_heap < Z.of_nat (List.length (cells demo_heap)) /\
  exists h' new,
    heapfy 1 2 demo_heap = Ok tt h' /\ same_memory h' demo_heap /\
    log h' = new ++ log demo_heap /\ (List.length new <= 4)%nat /\
    forallb is_read new = true.
Proof.
  assert (H1 : 1 <= 2) by lia.
  assert (H2 : 2 * 2 + 1 <= INT_MAX) by (unfold INT_MAX; lia).
  assert (H3 : heap_size demo_heap
               < Z.of_nat (List.length (cells demo_heap))) by (cbn; lia).
  assert (H4 : 2 * 2 <= heap_size demo_heap ->
               sel (cells demo_heap) (2 * 2) <= sel (cells demo_heap) 2)
    by (intros _; vm_compute; discriminate).
  assert (H5 : 2 * 2 + 1 <= heap_size demo_heap ->
               sel (cells demo_heap) (2 * 2 + 1) <= sel (cells demo_heap) 2)
    by (intros _; vm_compute; discriminate).
  exact (conj H1 (conj H2 (conj H3
           (heapfy_dominant_noop 0 2 demo_heap H1 H2 H3 H4 H5)))).
Defined.

(** X5. [heapfy] runs in logarithmic time: when the cells
    [0..heap_size] exist and [2*heap_size+1 <= INT_MAX], a call at a
    live index [i] returns within [log2 heap_size - log2 i + 1] nested
    calls (the fuel counts them) and makes at most eight array accesses
    per level it descends, plus four at the level where it stops. *)
Theorem heapfy_logarithmic (fuel : nat) :
  forall (i : Z) (h : heap),
    1 <= i <= heap_size h -> room (heap_size h) (cells h) ->
    Z.log2 (heap_size h) - Z.log2 i < Z.of_nat fuel ->
    exists h' new,
      heapfy fuel i h = Ok tt h' /\ log h' = new ++ log h /\
      Z.of_nat (List.length new)
      <= 8 * (Z.log2 (heap_size h) - Z.log2 i) + 4.
Proof.
  induction fuel as [|fuel IH]; intros i h Hi [Hlen Hfit] Hfuel.
  { pose proof (Z.log2_le_mono i (heap_size h) ltac:(lia)). lia. }
  assert (Hmax : 2 * i + 1 <= INT_MAX) by lia.
  destruct (pick_largest_spec i h ltac:(lia) Hmax Hlen)
    as (j & h1 & Hpick & Hc & Hlg & Hs & _ & Hj & _).
  destruct (pick_largest_cost i h ltac:(lia) Hmax Hlen)
    as (j' & h1' & new & Hpick' & Hlog & Hn & _).
  rewrite Hpick in Hpick'. injection Hpick' as <- <-.
  pose proof (Z.log2_le_mono i (heap_size h) ltac:(lia)) as Hmono.
  cbn [heapfy]. unfold bind at 1. rewrite Hpick.
  destruct (Z.eqb_spec j i) as [->|Hne].
  - exists h1, new. split; [reflexivity|]. split; [assumption|]. lia.
  - destruct Hj as [?|(Hchild & Hjhs & _)]; [contradiction|].
    assert (Hlog2 : Z.log2 j = Z.log2 i + 1).
    { destruct Hchild as [-> | ->];
        [rewrite Z.log2_double | rewrite Z.log2_succ_double]; lia. }
    pose proof (Z.log2_le_mono j (heap_size h) Hjhs) as Hmono'.
    rewrite exchange_ok by (rewrite Hc; lia). rewrite Hs.
    match goal with
    | |- exists h' new', heapfy fuel j ?st = _ /\ _ => set (h2 := st)
    end.
    destruct (IH j h2) as (h' & new2 & Hrun & Hlog2' & Hcost).
    + cbn [h2 heap_size]. lia.
    + split; cbn [h2 heap_size cells]; [|assumption].
      rewrite exchange_length by (rewrite Hc; lia). now rewrite Hc.
    + cbn [h2 heap_size]. lia.
    + cbn [h2 heap_size log] in *.
      exists h', (new2 ++ [Wr j; Wr i; Rd j; Rd i] ++ new).
      split; [exact Hrun|]. split.
      * rewrite Hlog2', Hlog. rewrite <- !app_assoc. reflexivity.
      * rewrite !length_app. cbn [List.length]. lia.
Qed.

Lemma heapfy_logarithmic_witness :
  1 <= 1 <= heap_size demo_heap /\
  room (heap_size demo_heap) (cells demo_heap) /\
  Z.log2 (heap_size demo_heap) - Z.log2 1 < Z.of_nat 3 /\
  exists h' new,
    heapfy 3 1 demo_heap = Ok tt h' /\ log h' = new ++ log demo_heap /\
    Z.of_nat (List.length new)
    <= 8 * (Z.log2 (heap_size demo_heap) - Z.log2 1) + 4.
Proof.
  assert (H1 : 1 <= 1 <= heap_size demo_heap) by (cbn; lia).
  assert (H2 : room (heap_size demo_heap) (cells demo_heap)) by solve_room.
  assert (H3 : Z.log2 (heap_size demo_heap) - Z.log2 1 < Z.of_nat 3)
    by (vm_compute; reflexivity).
  exact (conj H1 (conj H2 (conj H3
           (heapfy_logarithmic 3 1 demo_heap H1 H2 H3)))).
Defined.

(** ** The live region as a sorted list *)

Lemma live_length (n : Z) (a : list Z) :
  0 <= n < Z.of_nat (List.length a) -> List.length (live n a) = Z.to_nat n.
Proof.
  intros H. unfold live. rewrite length_firstn, length_skipn. lia.
Qed.

Lemma nth_live (n : Z) (a : list Z) (j : nat) :
  (j < Z.to_nat n)%nat -> nth j (live n a) 0 = sel a (Z.of_nat (S j)).
Proof.
  intros H. unfold live, sel. rewrite nth_firstn.
  destruct (Nat.ltb_spec j (Z.to_nat n)); [|lia].
  rewrite nth_skipn, Nat2Z.id. reflexivity.
Qed.

Lemma sel_live (n : Z) (a : list Z) (k : Z) :
  1 <= k <= n -> sel a k = nth (Z.to_nat (k - 1)) (live n a) 0.
Proof.
  intros H. rewrite nth_live by lia. f_equal. lia.
Qed.

Lemma sorted_of_adjacent (l : list Z) :
  (forall j, (S j < List.length l)%nat -> nth j l 0 <= nth (S j) l 0) ->
  StronglySorted Z.le l.
Proof.
  intros H. apply Sorted_StronglySorted; [exact Z.le_trans|].
  induction l as [|x l IH]; constructor.
  - apply IH. intros j Hj. apply (H (S j)). simpl. lia.
  - destruct l as [|y l]; constructor. apply (H 0%nat). simpl. lia.
Qed.

(** A list has only one ascending arrangement. *)
Lemma sorted_perm_unique (l1 : list Z) :
  forall l2, Permutation l1 l2 -> StronglySorted Z.le l1 ->
             StronglySorted Z.le l2 -> l1 = l2.
Proof.
  induction l1 as [|x t1 IH]; intros l2 Hp H1 H2.
  - apply Permutation_nil in Hp. now subst.
  - destruct l2 as [|y t2];
      [apply Permutation_sym, Permutation_nil in Hp; discriminate|].
    apply StronglySorted_inv in H1. destruct H1 as [S1 F1].
    apply StronglySorted_inv in H2. destruct H2 as [S2 F2].
    rewrite Forall_forall in F1, F2.
    assert (x = y) as ->.
    { assert (In x (y :: t2)) as [E|I]
          by (eapply Permutation_in; [exact Hp | now left]);
        [congruence|].
      assert (In y (x :: t1)) as [E|I']
          by (eapply Permutation_in;
              [apply Permutation_sym; exact Hp | now left]);
        [congruence|].
      pose proof (F2 x I). pose proof (F1 y I'). lia. }
    f_equal. apply IH; try assumption.
    now apply Permutation_cons_inv in Hp.
Qed.

Lemma live_sorted (n : Z) (a : list Z) :
  0 <= n < Z.of_nat (List.length a) ->
  (forall k, 1 <= k < n -> sel a k <= sel a (k + 1)) ->
  StronglySorted Z.le (live n a).
Proof.
  intros Hn H. apply sorted_of_adjacent. intros j Hj.
  rewrite live_length in Hj by assumption.
  rewrite !nth_live by lia.
  replace (Z.of_nat (S (S j))) with (Z.of_nat (S j) + 1) by lia.
  apply H. lia.
Qed.

(** Arrays of one capacity that agree on slot 0, on the live region and
    beyond it are equal. *)
Lemma cells_ext (n : Z) (a b : list Z) :
  0 <= n -> List.length a = List.length b ->
  sel a 0 = sel b 0 -> live n a = live n b ->
  (forall k, n < k -> sel a k = sel b k) -> a = b.
Proof.
  intros Hn Hlen H0 Hlive Hout.
  apply nth_ext with (d := 0) (d' := 0); [assumption|].
  intros j Hj.
  destruct j as [|j]; [exact H0|].
  destruct (Z.lt_ge_cases n (Z.of_nat (S j))) as [G|G].
  - specialize (Hout _ G). unfold sel in Hout.
    now rewrite Nat2Z.id in Hout.
  - pose proof (nth_live n a j ltac:(lia)) as Ea.
    pose proof (nth_live n b j ltac:(lia)) as Eb.
    unfold sel in Ea, Eb. rewrite Nat2Z.id in Ea, Eb.
    rewrite <- Ea, <- Eb, Hlive. reflexivity.
Qed.

(** ** More on [build] *)

Lemma build_live (fuel : nat) (n : Z) (h : heap) :
  0 <= n -> room n (cells h) -> 2 * n < Z.of_nat fuel ->
  exists h', build fuel n h = Ok tt h' /\ build_post n h h' /\
             Permutation (live n (cells h)) (live n (cells h')).
Proof.
  intros Hn Hroom Hfuel.
  destruct (build_spec fuel n h Hn Hroom Hfuel) as (h' & Hrun & P).
  exists h'. split; [exact Hrun|]. split; [exact P|].
  destruct P as [Bs Bl Bc B0 Bp Bf Bh].
  rewrite <- (live_upd_sentinel n (cells h) (-1)).
  apply live_perm; try assumption.
  - rewrite upd_length. congruence.
  - intros k Hk. destruct (Z.lt_ge_cases n k) as [G|G].
    + rewrite Bf by assumption. symmetry. apply sel_upd_sentinel. lia.
    + rewrite (sel_nonpos (cells h')), (sel_nonpos (upd _ _ _)) by lia.
      rewrite B0. unfold sel. symmetry. apply nth_upd_same.
      destruct Hroom. simpl. lia.
Qed.

(** X6. For [n >= 0] with [2n+1 <= INT_MAX] and an array with slots
    [0..n], [build] returns and has only rearranged the live region:
    the values in slots [1..n] afterwards are a permutation of those
    before, the capacity is unchanged, and every slot above [n] is
    exactly as it was. *)
Theorem build_permutes (fuel : nat) (n : Z) (h : heap) :
  0 <= n -> room n (cells h) -> 2 * n < Z.of_nat fuel ->
  exists h', build fuel n h = Ok tt h' /\
             Permutation (live n (cells h)) (live n (cells h')) /\
             List.length (cells h') = List.length (cells h) /\
             forall k : nat, n < Z.of_nat k ->
                             nth_error (cells h') k = nth_error (cells h) k.
Proof.
  intros Hn Hroom Hfuel.
  destruct (build_live fuel n h Hn Hroom Hfuel) as (h' & Hrun & P & Hp).
  exists h'. destruct P as [_ _ Bc _ _ Bf _].
  repeat split; try assumption.
  intros k Hk. apply nth_error_sel; [congruence|]. now apply Bf.
Qed.

Lemma build_permutes_witness :
  0 <= 5 /\ room 5 (cells demo_input) /\ 2 * 5 < Z.of_nat 11 /\
  exists h', build 11 5 demo_input = Ok tt h' /\
             Permutation (live 5 (cells demo_input)) (live 5 (cells h')) /\
             List.length (cells h') = List.length (cells demo_input) /\
             forall k : nat, 5 < Z.of_nat k ->
                             nth_error (cells h') k
                             = nth_error (cells demo_input) k.
Proof.
  assert (H1 : 0 <= 5) by lia.
  assert (H2 : room 5 (cells demo_input)) by solve_room.
  assert (H3 : 2 * 5 < Z.of_nat 11) by (cbn; lia).
  exact (conj H1 (conj H2 (conj H3
           (build_permutes 11 5 demo_input H1 H2 H3)))).
Defined.

(** X7. For [n >= 1] with [2n+1 <= INT_MAX] and an array with slots
    [0..n], [build] returns and slot 1 then holds the maximum of the
    input: it is one of the values that were in slots [1..n], and none
    of them is larger. *)
Theorem build_root_is_maximum (fuel : nat) (n : Z) (h : heap) :
  1 <= n -> room n (cells h) -> 2 * n < Z.of_nat fuel ->
  exists h', build fuel n h = Ok tt h' /\
             In (sel (cells h') 1) (live n (cells h)) /\
             forall v, In v (live n (cells h)) -> v <= sel (cells h') 1.
Proof.
  intros Hn Hroom Hfuel.
  destruct (build_live fuel n h ltac:(lia) Hroom Hfuel)
    as (h' & Hrun & P & Hp).
  exists h'. split; [exact Hrun|].
  destruct P as [_ _ Bc _ _ _ Bh]. destruct Hroom as [Hlen Hfit].
  assert (Hl' : List.length (live n (cells h')) = Z.to_nat n)
    by (apply live_length; lia).
  split.
  - apply Permutation_in with (l := live n (cells h'));
      [now apply Permutation_sym|].
    rewrite (sel_live n) by lia. apply nth_In. lia.
  - intros v Hv. apply (Permutation_in _ Hp) in Hv.
    destruct (In_nth _ _ 0 Hv) as (j & Hj & <-).
    rewrite nth_live by lia.
    apply (root_max (cells h') n 1); try lia.
    + now apply max_heap_root.
    + apply in_subtree_root. lia.
Qed.

Lemma build_root_is_maximum_witness :
  1 <= 5 /\ room 5 (cells demo_input) /\ 2 * 5 < Z.of_nat 11 /\
  exists h', build 11 5 demo_input = Ok tt h' /\
             In (sel (cells h') 1) (live 5 (cells demo_input)) /\
             forall v, In v (live 5 (cells demo_input)) ->
                       v <= sel (cells h') 1.
Proof.
  assert (H1 : 1 <= 5) by lia.
  assert (H2 : room 5 (cells demo_input)) by solve_room.
  assert (H3 : 2 * 5 < Z.of_nat 11) by (cbn; lia).
  exact (conj H1 (conj H2 (conj H3
           (build_root_is_maximum 11 5 demo_input H1 H2 H3)))).
Defined.

(** ** More on [heapsort] *)

(** X8. For [n >= 0] with [2n+1 <= INT_MAX] and an array with slots
    [0..n], [heapsort] returns the ascending arrangement of its input:
    the live region afterwards is sorted as a list, and it is equal to
    any ascending list that is a permutation of the values that were in
    slots [1..n]; an input that is already ascending keeps its
    content. *)
Theorem heapsort_is_the_sort (fuel : nat) (n : Z) (h : heap) :
  0 <= n -> room n (cells h) -> 2 * n < Z.of_nat fuel ->
  exists h', heapsort fuel n h = Ok tt h' /\
             StronglySorted Z.le (live n (cells h')) /\
             forall l, Permutation l (live n (cells h)) ->
                       StronglySorted Z.le l -> live n (cells h') = l.
Proof.
  intros Hn Hroom Hfuel.
  destruct (heapsort_spec fuel n h Hn Hroom Hfuel) as (h' & Hrun & P).
  exists h'. split; [exact Hrun|].
  destruct P as [_ _ Sc _ Sp _ So]. destruct Hroom as [Hlen Hfit].
  assert (Hs : StronglySorted Z.le (live n (cells h')))
    by (apply live_sorted; [lia | assumption]).
  split; [exact Hs|]. intros l Hl Hsl. apply sorted_perm_unique.
  - apply Permutation_sym. eapply perm_trans; eassumption.
  - exact Hs.
  - exact Hsl.
Qed.

Lemma heapsort_is_the_sort_witness :
  0 <= 5 /\ room 5 (cells demo_input) /\ 2 * 5 < Z.of_nat 11 /\
  exists h', heapsort 11 5 demo_input = Ok tt h' /\
             StronglySorted Z.le (live 5 (cells h')) /\
             forall l, Permutation l (live 5 (cells demo_input)) ->
                       StronglySorted Z.le l -> live 5 (cells h') = l.
Proof.
  assert (H1 : 0 <= 5) by lia.
  assert (H2 : room 5 (cells demo_input)) by solve_room.
  assert (H3 : 2 * 5 < Z.of_nat 11) by (cbn; lia).
  exact (conj H1 (conj H2 (conj H3
           (heapsort_is_the_sort 11 5 demo_input H1 H2 H3)))).
Defined.

(** X9. For [n >= 0] with [2n+1 <= INT_MAX] and an array with slots
    [0..n], [heapsort] is idempotent: sorting the array it has just
    sorted returns an array and globals identical to those after the
    first call. *)
Theorem heapsort_idempotent (fuel : nat) (n : Z) (h : heap) :
  0 <= n -> room n (cells h) -> 2 * n < Z.of_nat fuel ->
  exists h1 h2, heapsort fuel n h = Ok tt h1 /\
                heapsort fuel n h1 = Ok tt h2 /\
                same_memory h2 h1.
Proof.
  intros Hn Hroom Hfuel.
  destruct (heapsort_spec fuel n h Hn Hroom Hfuel) as (h1 & Hrun1 & P1).
  destruct Hroom as [Hlen Hfit].
  destruct P1 as [Ss1 Sl1 Sc1 S01 Sp1 Sf1 So1].
  assert (Hroom1 : room n (cells h1)) by (split; [rewrite Sc1|]; assumption).
  destruct (heapsort_spec fuel n h1 Hn Hroom1 Hfuel) as (h2 & Hrun2 & P2).
  destruct P2 as [Ss2 Sl2 Sc2 S02 Sp2 Sf2 So2].
  exists h1, h2. split; [exact Hrun1|]. split; [exact Hrun2|].
  repeat split; try congruence.
  apply (cells_ext n); try congruence.
  - apply sorted_perm_unique.
    + now apply Permutation_sym.
    + apply live_sorted; [lia | assumption].
    + apply live_sorted; [lia | assumption].
  - exact Sf2.
Qed.

Lemma heapsort_idempotent_witness :
  0 <= 5 /\ room 5 (cells demo_input) /\ 2 * 5 < Z.of_nat 11 /\
  exists h1 h2, heapsort 11 5 demo_input = Ok tt h1 /\
                heapsort 11 5 h1 = Ok tt h2 /\
                same_memory h2 h1.
Proof.
  assert (H1 : 0 <= 5) by lia.
  assert (H2 : room 5 (cells demo_input)) by solve_room.
  assert (H3 : 2 * 5 < Z.of_nat 11) by (cbn; lia).
  exact (conj H1 (conj H2 (conj H3
           (heapsort_idempotent 11 5 demo_input H1 H2 H3)))).
Defined.

(** X10. For [n >= 0] with [2n+1 <= INT_MAX] and an array with slots
    [0..n], [heapsort] returns and has changed nothing outside slots
    [0..n]: the capacity of the array is unchanged, and every slot
    above [n] holds afterwards what it held before. *)
Theorem heapsort_frame (fuel : nat) (n : Z) (h : heap) :
  0 <= n -> room n (cells h) -> 2 * n < Z.of_nat fuel ->
  exists h', heapsort fuel n h = Ok tt h' /\
             List.length (cells h') = List.length (cells h) /\
             forall k : nat, n < Z.of_nat k ->
                             nth_error (cells h') k = nth_error (cells h) k.
Proof.
  intros Hn Hroom Hfuel.
  destruct (heapsort_spec fuel n h Hn Hroom Hfuel) as (h' & Hrun & P).
  exists h'. destruct P as [_ _ Sc _ _ Sf _].
  repeat split; try assumption.
  intros k Hk. apply nth_error_sel; [congruence|]. now apply Sf.
Qed.

Lemma heapsort_frame_witness :
  0 <= 5 /\ room 5 (cells demo_heap) /\ 2 * 5 < Z.of_nat 11 /\
  exists h', heapsort 11 5 demo_heap = Ok tt h' /\
             List.length (cells h') = List.length (cells demo_heap) /\
             forall k : nat, 5 < Z.of_nat k ->
                             nth_error (cells h') k
                             = nth_error (cells demo_heap) k.
Proof.
  assert (H1 : 0 <= 5) by lia.
  assert (H2 : room 5 (cells demo_heap)) by solve_room.
  assert (H3 : 2 * 5 < Z.of_nat 11) by (cbn; lia).
  exact (conj H1 (conj H2 (conj H3
           (heapsort_frame 11 5 demo_heap H1 H2 H3)))).
Defined.

(** *** The accesses of [build] and [heapsort] *)

Lemma build_loop_log (fuel : nat) :
  forall (k : Z) (h h' : heap),
    0 <= k <= heap_size h -> room (heap_size h) (cells h) ->
    heap_size h + k < Z.of_nat fuel ->
    build_loop fuel k h = Ok tt h' ->
    log_ext (fun x => 1 <= x <= heap_size h) (log h) (log h').
Proof.
  induction fuel as [|fuel IH]; intros k h h' Hk Hroom Hfuel Hrun; [lia|].
  cbn [build_loop] in Hrun. destruct (Z.leb_spec 1 k) as [L|L].
  - destruct Hroom as [Hlen Hfit].
    destruct (heapfy_spec fuel k h) as (h1 & Hrun1 & P);
      [lia | unfold INT_MAX in *; lia | split; assumption | lia |].
    unfold bind in Hrun. rewrite Hrun1 in Hrun.
    rewrite wrap_small in Hrun by (unfold INT_MIN, INT_MAX in *; lia).
    destruct P as [_ Ps Pc _ _ Plog _ _].
    apply log_ext_trans with (l1 := log h1).
    + eapply log_ext_weaken; [|exact Plog]. cbv beta.
      intros x [Hin Hle]. apply in_subtree_le in Hin; lia.
    + rewrite <- Ps. apply (IH (k - 1)); rewrite ?Ps; try lia; try assumption.
      unfold room. rewrite Pc. split; assumption.
  - injection Hrun as <-. constructor.
Qed.

Lemma heapsort_loop_log (n : Z) (fuel : nat) :
  forall h h' : heap,
    0 <= heap_size h <= n -> room n (cells h) ->
    heap_size h < Z.of_nat fuel ->
    heapsort_loop fuel 1 h = Ok tt h' ->
    log_ext (fun x => 1 <= x <= n) (log h) (log h').
Proof.
  induction fuel as [|fuel IH]; intros h h' Hr [Hlen Hfit] Hfuel Hrun; [lia|].
  cbn [heapsort_loop] in Hrun. unfold bind at 1 in Hrun.
  unfold get_heap_size at 1 in Hrun.
  destruct (Z.leb_spec 1 (heap_size h)) as [L|L].
  - rewrite exchange_ok in Hrun by lia.
    unfold bind at 1 in Hrun. unfold set_heap_size at 1 in Hrun.
    cbn [cells length log] in Hrun.
    rewrite wrap_small in Hrun by (unfold INT_MIN, INT_MAX in *; lia).
    unfold bind at 1 in Hrun.
    match type of Hrun with
    | context [heapfy fuel 1 ?st] => set (h2 := st) in *
    end.
    destruct (heapfy_spec fuel 1 h2) as (h3 & Hrun3 & P).
    { lia. }
    { unfold INT_MAX. lia. }
    { split; cbn [h2 heap_size cells]; [|lia].
      rewrite exchange_length; lia. }
    { cbn [h2 heap_size]. lia. }
    rewrite Hrun3 in Hrun. destruct P as [_ Ps Pc _ _ Plog _ _].
    cbn [h2 cells heap_size log] in *.
    apply log_ext_trans
      with (l1 := Wr 1 :: Wr (heap_size h) :: Rd 1 :: Rd (heap_size h) :: log h).
    { apply ext_cons; [|apply ext_cons; [|apply ext_cons;
        [|apply ext_cons; [|apply ext_refl]]]]; cbn [idx]; lia. }
    apply log_ext_trans with (l1 := log h3).
    + eapply log_ext_weaken; [|exact Plog]. cbv beta.
      intros x [Hin Hle]. apply in_subtree_le in Hin; lia.
    + apply (IH h3 h'); rewrite ?Ps; try lia; try assumption.
      split; [|assumption]. rewrite Pc, exchange_length; lia.
  - injection Hrun as <-. constructor.
Qed.

(** X11. For [n >= 0] with [2n+1 <= INT_MAX] and an array with slots
    [0..n], every array access [heapsort] makes lies in slots [0..n]:
    the first access is the write of the sentinel into slot 0, all later
    ones are at indices [1..n], so slot 0 is never read or compared and
    no slot above [n] is touched. *)
Theorem heapsort_access_bounds (fuel : nat) (n : Z) (h : heap) :
  0 <= n -> room n (cells h) -> 2 * n < Z.of_nat fuel ->
  exists h' new,
    heapsort fuel n h = Ok tt h' /\
    log h' = new ++ Wr 0 :: log h /\
    Forall (fun e => 1 <= idx e <= n) new.
Proof.
  intros Hn Hroom Hfuel.
  destruct (heapsort_spec fuel n h Hn Hroom Hfuel) as (h' & Hrun & _).
  destruct (build_spec fuel n h Hn Hroom Hfuel) as (h1 & Hb & B).
  assert (Hlog1 : log_ext (fun x => 1 <= x <= n) (Wr 0 :: log h) (log h1)).
  { destruct Hroom as [Hlen Hfit].
    pose proof Hb as Hb'. unfold build, bind, set_length, set_heap_size in Hb'.
    rewrite wr_ok in Hb' by (cbn [cells]; lia).
    cbn [cells length heap_size log] in Hb'.
    rewrite Z.shiftr_div_pow2 in Hb' by lia. change (2 ^ 1) with 2 in Hb'.
    pose proof (Z.div_pos n 2 Hn ltac:(lia)) as Hd0.
    pose proof (Z.div_le_upper_bound n 2 n ltac:(lia) ltac:(lia)) as Hd1.
    apply build_loop_log in Hb'; cbn [heap_size cells log] in *.
    - exact Hb'.
    - lia.
    - split; [rewrite upd_length|]; assumption.
    - lia. }
  assert (Hlog2 : log_ext (fun x => 1 <= x <= n) (log h1) (log h')).
  { destruct B as [Bs _ Bc _ _ _ _]. destruct Hroom as [Hlen Hfit].
    unfold heapsort, bind in Hrun. rewrite Hb in Hrun.
    apply (heapsort_loop_log n fuel h1 h'); rewrite ?Bs; try lia;
      try assumption.
    split; [rewrite Bc|]; assumption. }
  destruct (log_ext_app _ _ _ (log_ext_trans _ _ _ _ Hlog1 Hlog2))
    as (new & Hnew & Hall).
  exists h', new. auto.
Qed.

Lemma heapsort_access_bounds_witness :
  0 <= 5 /\ room 5 (cells demo_input) /\ 2 * 5 < Z.of_nat 11 /\
  exists h' new,
    heapsort 11 5 demo_input = Ok tt h' /\
    log h' = new ++ Wr 0 :: log demo_input /\
    Forall (fun e => 1 <= idx e <= 5) new.
Proof.
  assert (H1 : 0 <= 5) by lia.
  assert (H2 : room 5 (cells demo_input)) by solve_room.
  assert (H3 : 2 * 5 < Z.of_nat 11) by (cbn; lia).
  exact (conj H1 (conj H2 (conj H3
           (heapsort_access_bounds 11 5 demo_input H1 H2 H3)))).
Defined.

(** ** Calls outside the contract *)

Lemma rd_fault (i : Z) (h : heap) :
  Z.of_nat (List.length (cells h)) <= i -> rd i h = Fault.
Proof.
  intros H. unfold rd. destruct (0 <=? i); [|reflexivity].
  assert (nth_error (cells h) (Z.to_nat i) = None) as ->
      by (apply nth_error_None; lia).
  reflexivity.
Qed.

(** At the last internal node of a heap that claims as many elements as
    the array has cells, the selection reads past the end. *)
Lemma pick_largest_fault (k : Z) (h : heap) :
  1 <= k -> 2 * k + 1 <= INT_MAX ->
  2 * k <= heap_size h <= 2 * k + 1 ->
  Z.of_nat (List.length (cells h)) <= heap_size h ->
  pick_largest k h = Fault.
Proof.
  intros Hk Hmax Hhs Hlen. unfold pick_largest.
  rewrite left_small, right_small by lia.
  unfold bind at 1. unfold get_heap_size at 1.
  destruct (Z.leb_spec (2 * k) (heap_size h)) as [_|]; [|lia].
  unfold bind at 1. unfold bind at 1.
  destruct (Z.lt_ge_cases k (Z.of_nat (List.length (cells h)))) as [B1|B1];
    [|now rewrite rd_fault].
  rewrite rd_ok by lia. unfold bind at 1.
  destruct (Z.lt_ge_cases (2 * k) (Z.of_nat (List.length (cells h))))
    as [B2|B2]; [|now rewrite rd_fault].
  rewrite rd_ok by (cbn [cells]; lia). unfold ret at 1.
  unfold bind at 1. unfold get_heap_size at 1. cbn [heap_size cells].
  destruct (Z.leb_spec (2 * k + 1) (heap_size h)) as [_|]; [|lia].
  unfold bind at 1.
  rewrite rd_ok by (cbn [cells]; destruct (_ <? _); lia).
  unfold bind at 1. rewrite rd_fault by (cbn [cells]; lia). reflexivity.
Qed.

(** X12. The capacity [n+1] is needed, for every [int] [n >= 1]: when
    the array has no slot [n] (its capacity is at most [n]),
    [heapsort] reads past the end of the array, and for [n >= 2] so
    does [build], at its very first [heapfy] call. *)
Theorem heapsort_needs_capacity (fuel : nat) (n : Z) (h : heap) :
  1 <= n <= INT_MAX -> Z.of_nat (List.length (cells h)) <= n ->
  (2 <= fuel)%nat ->
  heapsort fuel n h = Fault /\ (2 <= n -> build fuel n h = Fault).
Proof.
  intros [Hn Hmax] Hlen Hfuel. unfold INT_MAX in Hmax.
  assert (Hb : (2 <= n -> build fuel n h = Fault) /\
               (n = 1 -> build fuel n h = Fault \/
                         exists h1, build fuel n h = Ok tt h1 /\
                                    heap_size h1 = 1 /\
                                    List.length (cells h1)
                                    = List.length (cells h))).
  { unfold build, bind, set_length, set_heap_size.
    destruct (Nat.eq_dec (List.length (cells h)) 0) as [E|E].
    { unfold wr. cbn [cells]. rewrite E. cbn. split; auto. }
    rewrite wr_ok by (cbn [cells]; lia). cbn [cells length heap_size log].
    rewrite Z.shiftr_div_pow2 by lia. change (2 ^ 1) with 2.
    pose proof (Z.div_mod n 2 ltac:(lia)) as Hdm.
    pose proof (Z.mod_pos_bound n 2 ltac:(lia)) as Hmb.
    destruct fuel as [|[|fuel]]; try lia. split.
    - intros H2. cbn [build_loop].
      destruct (Z.leb_spec 1 (n / 2)) as [_|]; [|lia].
      unfold bind at 1. cbn [heapfy]. unfold bind at 1.
      rewrite pick_largest_fault; cbn [heap_size cells];
        unfold INT_MAX; try lia; try reflexivity.
      rewrite upd_length. lia.
    - intros ->. right. eexists. split; [reflexivity|].
      cbn [heap_size cells]. split; [reflexivity | apply upd_length]. }
  destruct Hb as [Hb2 Hb1]. split; [|exact Hb2].
  unfold heapsort, bind.
  destruct (Z.eq_dec n 1) as [E|E].
  - destruct (Hb1 E) as [->|(h1 & -> & Hs & Hc)]; [reflexivity|].
    destruct fuel as [|fuel]; [lia|]. cbn [heapsort_loop].
    unfold bind at 1. unfold get_heap_size at 1. rewrite Hs.
    cbn [Z.leb Z.compare Pos.compare Pos.compare_cont].
    unfold bind at 1. rewrite rd_fault by (rewrite Hc; lia). reflexivity.
  - rewrite Hb2 by lia. reflexivity.
Qed.

Lemma heapsort_needs_capacity_witness :
  1 <= 3 <= INT_MAX /\ Z.of_nat (List.length (cells small_heap)) <= 3 /\
  (2 <= 7)%nat /\
  heapsort 7 3 small_heap = Fault /\ (2 <= 3 -> build 7 3 small_heap = Fault).
Proof.
  assert (H1 : 1 <= 3 <= INT_MAX) by (unfold INT_MAX; lia).
  assert (H2 : Z.of_nat (List.length (cells small_heap)) <= 3) by (cbn; lia).
  assert (H3 : (2 <= 7)%nat) by lia.
  exact (conj H1 (conj H2 (conj H3
           (heapsort_needs_capacity 7 3 small_heap H1 H2 H3)))).
Defined.

(** X13. A negative [n] is not rejected and does no harm to the
    elements: on an array with a slot 0, [build] and [heapsort] write
    the sentinel, store the negative [n] in both [length] and
    [heap_size], run neither loop and return. *)
Theorem heapsort_negative_count (fuel : nat) (n : Z) (h : heap) :
  n < 0 -> (0 < List.length (cells h))%nat -> (0 < fuel)%nat ->
  build fuel n h
  = Ok tt (mkHeap (upd (cells h) 0 (-1)) n n (Wr 0 :: log h)) /\
  heapsort fuel n h
  = Ok tt (mkHeap (upd (cells h) 0 (-1)) n n (Wr 0 :: log h)).
Proof.
  intros Hn Hlen Hfuel. destruct fuel as [|fuel]; [lia|].
  assert (Hb : build (S fuel) n h
               = Ok tt (mkHeap (upd (cells h) 0 (-1)) n n (Wr 0 :: log h))).
  { unfold build, bind, set_length, set_heap_size.
    rewrite wr_ok by (cbn [cells]; lia). cbn [cells length heap_size log].
    cbn [build_loop].
    pose proof (proj2 (Z.shiftr_neg n 1) Hn) as Hs.
    destruct (Z.leb_spec 1 (Z.shiftr n 1)); [lia|]. reflexivity. }
  split; [exact Hb|].
  unfold heapsort, bind. rewrite Hb. cbn [heapsort_loop].
  unfold bind, get_heap_size. cbn [heap_size].
  destruct (Z.leb_spec 1 n); [lia|]. reflexivity.
Qed.

Lemma heapsort_negative_count_witness :
  -2 < 0 /\ (0 < List.length (cells small_heap))%nat /\ (0 < 1)%nat /\
  build 1 (-2) small_heap
  = Ok tt (mkHeap (upd (cells small_heap) 0 (-1)) (-2) (-2)
                  (Wr 0 :: log small_heap)) /\
  heapsort 1 (-2) small_heap
  = Ok tt (mkHeap (upd (cells small_heap) 0 (-1)) (-2) (-2)
                  (Wr 0 :: log small_heap)).
Proof.
  assert (H1 : -2 < 0) by lia.
  assert (H2 : (0 < List.length (cells small_heap))%nat) by (cbn; lia).
  assert (H3 : (0 < 1)%nat) by lia.
  exact (conj H1 (conj H2 (conj H3
           (heapsort_negative_count 1 (-2) small_heap H1 H2 H3)))).
Defined.

(** ** [print] *)

Lemma skipn_nth (l : list Z) :
  forall k, (k < List.length l)%nat -> skipn k l = nth k l 0 :: skipn (S k) l.
Proof.
  induction l as [|x l IH]; intros [|k] H; simpl in *; try lia.
  - reflexivity.
  - apply IH. lia.
Qed.

Lemma reads_from_succ (s m : nat) (l : list access) :
  reads_from s (S m) ++ l = reads_from (S s) m ++ Rd (Z.of_nat s) :: l.
Proof.
  unfold reads_from. cbn [seq map rev]. now rewrite <- app_assoc.
Qed.

Lemma print_loop_spec (m : nat) :
  forall (fuel : nat) (i : Z) (h : heap),
    1 <= i -> Z.of_nat m = length h + 1 - i ->
    length h < Z.of_nat (List.length (cells h)) -> length h < INT_MAX ->
    (m < fuel)%nat ->
    print_loop fuel i h
    = Ok (render (firstn m (skipn (Z.to_nat i) (cells h))))
         (mkHeap (cells h) (length h) (heap_size h)
                 (reads_from (Z.to_nat i) m ++ log h)).
Proof.
  induction m as [|m IH]; intros fuel i h Hi Hm Hlen Hmax Hfuel;
    (destruct fuel as [|fuel]; [lia|]); cbn [print_loop];
    unfold bind at 1; unfold get_length at 1.
  - destruct (Z.leb_spec i (length h)); [lia|]. destruct h. reflexivity.
  - destruct (Z.leb_spec i (length h)); [|lia].
    unfold bind at 1. rewrite rd_ok by lia. unfold bind at 1.
    rewrite wrap_small by (unfold INT_MIN, INT_MAX in *; lia).
    rewrite IH; cbn [cells length heap_size log]; try lia.
    unfold ret.
    rewrite (skipn_nth (cells h) (Z.to_nat i)) by lia.
    rewrite reads_from_succ.
    replace (Z.to_nat (i + 1)) with (S (Z.to_nat i)) by lia.
    rewrite Z2Nat.id by lia. reflexivity.
Qed.

(** X14. [print] writes the values of slots [1..length] in array order,
    each in decimal followed by a space, then a newline; it reads
    exactly these slots, once each and in increasing order, and leaves
    the array and the globals as they are. *)
Theorem print_output (fuel : nat) (h : heap) :
  0 <= length h -> length h < Z.of_nat (List.length (cells h)) ->
  length h < INT_MAX -> length h < Z.of_nat fuel ->
  print fuel h
  = Ok (render (live (length h) (cells h)))
       (mkHeap (cells h) (length h) (heap_size h)
               (reads_from 1 (Z.to_nat (length h)) ++ log h)).
Proof.
  intros H0 Hlen Hmax Hfuel. unfold print, live.
  now rewrite (print_loop_spec (Z.to_nat (length h))) by lia.
Qed.

Lemma print_output_witness :
  0 <= length demo_heap /\
  length demo_heap < Z.of_nat (List.length (cells demo_heap)) /\
  length demo_heap < INT_MAX /\ length demo_heap < Z.of_nat 8 /\
  print 8 demo_heap
  = Ok (render (live (length demo_heap) (cells demo_heap)))
       (mkHeap (cells demo_heap) (length demo_heap) (heap_size demo_heap)
               (reads_from 1 (Z.to_nat (length demo_heap)) ++ log demo_heap)).
Proof.
  assert (H1 : 0 <= length demo_heap) by (cbn; lia).
  assert (H2 : length demo_heap < Z.of_nat (List.length (cells demo_heap)))
    by (cbn; lia).
  assert (H3 : length demo_heap < INT_MAX) by (cbn; unfold INT_MAX; lia).
  assert (H4 : length demo_heap < Z.of_nat 8) by (cbn; lia).
  exact (conj H1 (conj H2 (conj H3 (conj H4
           (print_output 8 demo_heap H1 H2 H3 H4))))).
Defined.

Lemma print_loop_fault (m : nat) :
  forall (fuel : nat) (i : Z) (h : heap),
    1 <= i ->
    Z.of_nat m = Z.max 1 (Z.of_nat (List.length (cells h))) - i ->
    Z.max 1 (Z.of_nat (List.length (cells h))) <= length h ->
    length h <= INT_MAX -> (m < fuel)%nat ->
    print_loop fuel i h = Fault.
Proof.
  induction m as [|m IH]; intros fuel i h Hi Hm Hlen Hmax Hfuel;
    (destruct fuel as [|fuel]; [lia|]); cbn [print_loop];
    unfold bind at 1; unfold get_length at 1;
    (destruct (Z.leb_spec i (length h)); [|lia]); unfold bind at 1.
  - rewrite rd_fault by lia. reflexivity.
  - rewrite rd_ok by lia. unfold bind at 1.
    rewrite wrap_small by (unfold INT_MIN, INT_MAX in *; lia).
    rewrite IH; cbn [cells length]; try lia. reflexivity.
Qed.

(** X15. [print] trusts the global [length]: when [length >= 1] is at
    least the capacity of the array it is given (as when [length] was
    last set for a larger array), [print] reads past the end of the
    array. *)
Theorem print_needs_capacity (fuel : nat) (h : heap) :
  1 <= length h -> Z.of_nat (List.length (cells h)) <= length h ->
  length h <= INT_MAX -> (List.length (cells h) < fuel)%nat ->
  print fuel h = Fault.
Proof.
  intros H1 Hlen Hmax Hfuel. unfold print.
  apply (print_loop_fault
           (Z.to_nat (Z.max 1 (Z.of_nat (List.length (cells h))) - 1)));
    lia.
Qed.

Lemma print_needs_capacity_witness :
  1 <= length overlong /\
  Z.of_nat (List.length (cells overlong)) <= length overlong /\
  length overlong <= INT_MAX /\ (List.length (cells overlong) < 4)%nat /\
  print 4 overlong = Fault.
Proof.
  assert (H1 : 1 <= length overlong) by (cbn; lia).
  assert (H2 : Z.of_nat (List.length (cells overlong)) <= length overlong)
    by (cbn; lia).
  assert (H3 : length overlong <= INT_MAX) by (cbn; unfold INT_MAX; lia).
  assert (H4 : (List.length (cells overlong) < 4)%nat) by (cbn; lia).
  exact (conj H1 (conj H2 (conj H3 (conj H4
           (print_needs_capacity 4 overlong H1 H2 H3 H4))))).
Defined.

(** X16. For [n >= 0] with [2n+1 <= INT_MAX] and an array with slots
    [0..n], [heapsort] followed by [print], as the driver calls them,
    writes the input values in ascending order: the text is the
    rendering of the ascending permutation of the values that were in
    slots [1..n]. *)
Theorem heapsort_then_print (fuel : nat) (n : Z) (h : heap) :
  0 <= n -> room n (cells h) -> 2 * n < Z.of_nat fuel ->
  exists h' l,
    (heapsort fuel n ;;; print fuel) h = Ok (render l) h' /\
    StronglySorted Z.le l /\ Permutation (live n (cells h)) l.
Proof.
  intros Hn Hroom Hfuel.
  destruct (heapsort_spec fuel n h Hn Hroom Hfuel) as (h1 & Hrun & P).
  destruct P as [_ Sl Sc _ Sp _ So]. destruct Hroom as [Hlen Hfit].
  unfold bind. rewrite Hrun.
  rewrite print_output by (rewrite ?Sl, ?Sc; unfold INT_MAX in *; lia).
  rewrite Sl. do 2 eexists. split; [reflexivity|].
  split; [|exact Sp]. apply live_sorted; [lia | assumption].
Qed.

Lemma heapsort_then_print_witness :
  0 <= 5 /\ room 5 (cells demo_input) /\ 2 * 5 < Z.of_nat 11 /\
  exists h' l,
    (heapsort 11 5 ;;; print 11) demo_input = Ok (render l) h' /\
    StronglySorted Z.le l /\ Permutation (live 5 (cells demo_input)) l.
Proof.
  assert (H1 : 0 <= 5) by lia.
  assert (H2 : room 5 (cells demo_input)) by solve_room.
  assert (H3 : 2 * 5 < Z.of_nat 11) by (cbn; lia).
  exact (conj H1 (conj H2 (conj H3
           (heapsort_then_print 11 5 demo_input H1 H2 H3)))).
Defined.
